(** * The E1.33 monitor (tools/e133/e133-monitor.cpp)

    A shallow embedding of [SimpleE133Monitor]: the table of per-node TCP
    state, the callbacks that the connector, the sockets and the inflator
    chain run on it, and the start-up code of [main].

    The monitor talks to collaborators whose code lives elsewhere (the
    select server, the TCP connector, sockets, the health checked
    connection, the SLP thread, the log).  Every call made on one of them is
    recorded, in program order, in a trace of [Event]s; what a collaborator
    answers (whether [Setup()] succeeds, what [GetPeer] reports, whether an
    address parses) is an input of the operation that asks. *)

From Stdlib Require Import NArith ZArith Lia Ascii String.
From stdpp Require Import base option list gmap strings.

Local Open Scope N_scope.

(** ** Data *)

(** [ola::network::IPV4Address]; the table is keyed by [AsInt()], a
    [uint32_t]. *)
Record IPV4Address := mkIP { AsInt : N }.

(** A connected [TcpSocket]: the descriptor and the address that
    [GetPeer] reports for it. *)
Record TcpSocket := mkSocket { sd : nat; GetPeer : IPV4Address }.

(** Objects allocated with [new] live at a location. *)
Abbreviation loc := positive.

(** An [E133HealthCheckedConnection] object: which socket it watches and
    the node state bound into its unhealthy callback. *)
Record E133HealthCheckedConnection := mkHC {
  hc_id : nat;
  hc_socket : TcpSocket;
  hc_node : loc
}.

(** [class NodeTCPState]. *)
Record NodeTCPState := mkNode {
  socket : option TcpSocket;
  health_checked_connection : option E133HealthCheckedConnection;
  connection_attempts : N
}.

#[global] Instance IPV4Address_eq_dec : EqDecision IPV4Address.
Proof. solve_decision. Defined.
#[global] Instance TcpSocket_eq_dec : EqDecision TcpSocket.
Proof. solve_decision. Defined.
#[global] Instance E133HealthCheckedConnection_eq_dec :
  EqDecision E133HealthCheckedConnection.
Proof. solve_decision. Defined.
#[global] Instance NodeTCPState_eq_dec : EqDecision NodeTCPState.
Proof. solve_decision. Defined.

(** [unsigned int] arithmetic. *)
Definition uint_incr (n : N) : N := (n + 1) mod 2 ^ 32.

(** The constructor [NodeTCPState()]. *)
Definition NodeTCPState_new : NodeTCPState :=
  {| socket := None; health_checked_connection := None;
     connection_attempts := 0 |}.

Definition set_socket (s : option TcpSocket) (ns : NodeTCPState) :=
  {| socket := s;
     health_checked_connection := health_checked_connection ns;
     connection_attempts := connection_attempts ns |}.

Definition set_health_checked_connection
    (h : option E133HealthCheckedConnection) (ns : NodeTCPState) :=
  {| socket := socket ns;
     health_checked_connection := h;
     connection_attempts := connection_attempts ns |}.

Definition incr_connection_attempts (ns : NodeTCPState) :=
  {| socket := socket ns;
     health_checked_connection := health_checked_connection ns;
     connection_attempts := uint_incr (connection_attempts ns) |}.

(** ** Collaborators *)

Inductive log_level := OLA_LOG_FATAL | OLA_LOG_WARN | OLA_LOG_INFO.

(** [ola::plugin::e131::E133_PORT] and [&m_backoff_policy], the two
    constant arguments of every [AddEndpoint] call.  The port number is
    defined in ACNPort.h, elsewhere in the repository, and stays
    symbolic. *)
Inductive Port := E133_PORT.
Inductive PolicyRef := m_backoff_policy_ref.

(** The arguments of [exit]: 0 and the two sysexits.h codes. *)
Inductive ExitCode := EXIT_SUCCESS | EX_OSFILE | EX_UNAVAILABLE.

(** One constructor per method called on a collaborator.  [Log] keeps
    the level and the fixed text of a message; the values streamed into
    it are left out. *)
Inductive Event :=
  | Log (level : log_level) (text : string)
  | AddEndpoint (ip : IPV4Address) (port : Port) (policy : PolicyRef)
  | NewHealthCheckedConnection (h : E133HealthCheckedConnection)
  | Setup (h : E133HealthCheckedConnection) (ok : bool)
  | DeleteHealthCheckedConnection (h : E133HealthCheckedConnection)
  | HeartbeatReceived (h : E133HealthCheckedConnection)
  | Close (s : TcpSocket)
  | DeleteSocket (s : TcpSocket)
  | SetOnClose (s : TcpSocket) (ip : IPV4Address)
  | SetOnData (s : TcpSocket)
  | AddReadDescriptor (s : TcpSocket)
  | RemoveReadDescriptor (s : option TcpSocket)
  | Terminate
  | SlpStart
  | Discover
  | SelectServerRun
  | DisplayHelp.

#[global] Instance log_level_eq_dec : EqDecision log_level.
Proof. solve_decision. Defined.
#[global] Instance Port_eq_dec : EqDecision Port.
Proof. solve_decision. Defined.
#[global] Instance PolicyRef_eq_dec : EqDecision PolicyRef.
Proof. solve_decision. Defined.
#[global] Instance ExitCode_eq_dec : EqDecision ExitCode.
Proof. solve_decision. Defined.
#[global] Instance Event_eq_dec : EqDecision Event.
Proof. solve_decision. Defined.

(** ** The monitor *)

(** [m_ip_map] is a hash map from [uint32_t] to [NodeTCPState*]; the
    pointed-to objects are in [heap].  [next_hc] numbers the health
    checked connections as they are constructed; [trace] lists the calls
    made so far, oldest first. *)
Record SimpleE133Monitor := mkMonitor {
  m_ip_map : gmap N loc;
  heap : gmap loc NodeTCPState;
  next_hc : nat;
  trace : list Event
}.

Definition monitor_new : SimpleE133Monitor :=
  {| m_ip_map := ∅; heap := ∅; next_hc := 0; trace := [] |}.

Definition emit (e : Event) (m : SimpleE133Monitor) : SimpleE133Monitor :=
  {| m_ip_map := m_ip_map m; heap := heap m; next_hc := next_hc m;
     trace := trace m ++ [e] |}.

(** [*p = ns] for a node state pointer [p]. *)
Definition store (p : loc) (ns : NodeTCPState) (m : SimpleE133Monitor) :=
  {| m_ip_map := m_ip_map m; heap := <[p := ns]> (heap m);
     next_hc := next_hc m; trace := trace m |}.

(** [m_ip_map[key] = p]. *)
Definition map_set (key : N) (p : loc) (m : SimpleE133Monitor) :=
  {| m_ip_map := <[key := p]> (m_ip_map m); heap := heap m;
     next_hc := next_hc m; trace := trace m |}.

Definition bump_hc (m : SimpleE133Monitor) :=
  {| m_ip_map := m_ip_map m; heap := heap m; next_hc := S (next_hc m);
     trace := trace m |}.

(** [delete p] on a possibly null pointer: nothing happens for null. *)
Definition delete_hc (p : option E133HealthCheckedConnection)
    (m : SimpleE133Monitor) : SimpleE133Monitor :=
  match p with
  | Some h => emit (DeleteHealthCheckedConnection h) m
  | None => m
  end.

Definition delete_socket (p : option TcpSocket) (m : SimpleE133Monitor)
    : SimpleE133Monitor :=
  match p with
  | Some s => emit (DeleteSocket s) m
  | None => m
  end.

(** The node state an address is mapped to, read through the pointer. *)
Definition node_of (m : SimpleE133Monitor) (ip : IPV4Address)
    : option NodeTCPState :=
  p ← m_ip_map m !! AsInt ip; heap m !! p.

(** *** [SimpleE133Monitor::AddIP] *)
Definition AddIP (ip_address : IPV4Address) (m : SimpleE133Monitor)
    : SimpleE133Monitor :=
  match m_ip_map m !! AsInt ip_address with
  | Some _ => m (* the IP already exists *)
  | None =>
      let m := emit (Log OLA_LOG_INFO "Opening TCP connection to") m in
      let node_state := fresh (dom (heap m)) in
      let m := store node_state
                 (incr_connection_attempts NodeTCPState_new) m in
      let m := map_set (AsInt ip_address) node_state m in
      (* start the non-blocking connect *)
      emit (AddEndpoint ip_address E133_PORT m_backoff_policy_ref) m
  end.

(** *** [SimpleE133Monitor::OnTCPConnect]

    [setup_ok] is what [health_checked_connection->Setup()] returns.  The
    result is [None] when the code dereferences a null or dangling
    pointer. *)
Definition OnTCPConnect (ip_address : IPV4Address) (port : N)
    (sock : option TcpSocket) (setup_ok : bool) (m : SimpleE133Monitor)
    : option SimpleE133Monitor :=
  match m_ip_map m !! AsInt ip_address with
  | None =>
      let m := emit (Log OLA_LOG_FATAL "Unable to locate socket for") m in
      match sock with
      | Some s => Some (emit (DeleteSocket s) (emit (Close s) m))
      | None => Some m
      end
  | Some node_state =>
      ns ← heap m !! node_state;
      let ns := set_socket sock ns in
      let m := store node_state ns m in
      (* setup the health checked channel here; both branches below call
         a method of [socket] *)
      s ← sock;
      let hc := {| hc_id := next_hc m; hc_socket := s;
                   hc_node := node_state |} in
      let m := emit (NewHealthCheckedConnection hc) (bump_hc m) in
      let m := emit (Setup hc setup_ok) m in
      if negb setup_ok then
        let m := emit (Log OLA_LOG_WARN
                         "Failed to setup heartbeat controller for") m in
        let m := emit (DeleteHealthCheckedConnection hc) m in
        let m := emit (Close s) m in
        let m := emit (DeleteSocket s) m in
        Some (store node_state (set_socket None ns) m)
      else
        let m :=
          match health_checked_connection ns with
          | Some _ =>
              emit (Log OLA_LOG_WARN
                "pre-existing health_checked_connection, this is a bug and we'll leak memory!") m
          | None => m
          end in
        let m := store node_state
                   (set_health_checked_connection (Some hc) ns) m in
        let m := emit (SetOnClose s ip_address) m in
        let m := emit (SetOnData s) m in
        Some (emit (AddReadDescriptor s) m)
  end.

(** *** [SimpleE133Monitor::SocketClosed] *)
Definition SocketClosed (ip_address : IPV4Address) (m : SimpleE133Monitor)
    : option SimpleE133Monitor :=
  let m := emit (Log OLA_LOG_INFO "connection was closed") m in
  match m_ip_map m !! AsInt ip_address with
  | None => Some (emit (Log OLA_LOG_FATAL "Unable to locate socket for") m)
  | Some node_state =>
      ns ← heap m !! node_state;
      let m := delete_hc (health_checked_connection ns) m in
      let ns := set_health_checked_connection None ns in
      let m := store node_state ns m in
      let m := emit (RemoveReadDescriptor (socket ns)) m in
      let m := delete_socket (socket ns) m in
      let m := store node_state (set_socket None ns) m in
      Some (emit Terminate m)
  end.

(** *** [SimpleE133Monitor::SocketUnhealthy]

    The argument is the [NodeTCPState*] bound into the callback when the
    health checked connection was constructed. *)
Definition SocketUnhealthy (node_state : loc) (m : SimpleE133Monitor)
    : option SimpleE133Monitor :=
  let m := emit (Log OLA_LOG_INFO "connection went unhealthy") m in
  ns ← heap m !! node_state;
  let m := delete_hc (health_checked_connection ns) m in
  let ns := set_health_checked_connection None ns in
  let m := store node_state ns m in
  s ← socket ns;
  let peer_address := GetPeer s in
  SocketClosed peer_address m.

(** *** Headers handed over by the inflator chain *)

(** Modelled from the spec: the transport kind of TransportHeader.h, which
    is elsewhere in the repository.  The monitor only ever compares it
    with [TCP]; [UDP] stands for every other kind. *)
Inductive TransportType := TCP | UDP.

(** Modelled from the spec: [TransportHeader{sourceAddress,
    transportKind}] of section 4.4, with the accessor names the monitor
    uses. *)
Record TransportHeader := mkTransportHeader {
  SourceIP : IPV4Address;
  Transport : TransportType
}.

(** Modelled from the spec: the session header (E133Header.h, elsewhere
    in the repository), of which only the endpoint identifier matters
    here. *)
Record E133Header := mkE133Header { Endpoint : N }.

#[global] Instance TransportType_eq_dec : EqDecision TransportType.
Proof. solve_decision. Defined.

(** *** [SimpleE133Monitor::E133DataReceived] *)
Definition E133DataReceived (header : TransportHeader)
    (m : SimpleE133Monitor) : option SimpleE133Monitor :=
  if negb (bool_decide (Transport header = TCP)) then Some m
  else
    match m_ip_map m !! AsInt (SourceIP header) with
    | None =>
        Some (emit (Log OLA_LOG_FATAL
                      "Received data but unable to lookup socket for") m)
    | Some node_state =>
        ns ← heap m !! node_state;
        match health_checked_connection ns with
        | Some h => Some (emit (HeartbeatReceived h) m)
        | None => Some m
        end
    end.

(** *** [SimpleE133Monitor::EndpointRequest]: we received data to
    endpoint 0 *)
Definition EndpointRequest (transport_header : TransportHeader)
    (e133_header : E133Header) (raw_request : string)
    (m : SimpleE133Monitor) : SimpleE133Monitor :=
  emit (Log OLA_LOG_INFO "got message from") m.

(** *** [SimpleE133Monitor::PopulateResponderList] and [Run] *)
Definition PopulateResponderList (m : SimpleE133Monitor) :=
  emit Discover m.

Definition Run (m : SimpleE133Monitor) := emit SelectServerRun m.

(** ** Delivery of a decoded frame *)

(** Modelled from the spec: a fully decoded frame as the terminal layer
    of the inflator chain sees it: the two headers, whether the layer
    recognises the frame as a heartbeat, and the opaque payload. *)
Record Frame := mkFrame {
  frame_transport : TransportHeader;
  frame_e133 : E133Header;
  frame_is_heartbeat : bool;
  frame_payload : string
}.

(** Modelled from the spec: the terminal layer of the inflator chain
    ([DMPE133Inflator], elsewhere in the repository), which the
    constructor wires to [E133DataReceived] as its data callback and to
    [EndpointRequest] as the handler of endpoint 0.  Following section 4.4,
    for endpoint 0 a frame recognised as a heartbeat goes to the heartbeat
    logic and is not forwarded further; any other frame is forwarded,
    payload and headers, to the handler. *)
Definition deliver_endpoint0 (f : Frame) (m : SimpleE133Monitor)
    : option SimpleE133Monitor :=
  if frame_is_heartbeat f then E133DataReceived (frame_transport f) m
  else Some (EndpointRequest (frame_transport f) (frame_e133 f)
               (frame_payload f) m).

(** ** Sequences of callbacks *)

Inductive Op :=
  | OpAddIP (ip : IPV4Address)
  | OpOnTCPConnect (ip : IPV4Address) (port : N) (sock : option TcpSocket)
      (setup_ok : bool)
  | OpSocketUnhealthy (node_state : loc)
  | OpSocketClosed (ip : IPV4Address)
  | OpE133DataReceived (header : TransportHeader).

Definition step (op : Op) (m : SimpleE133Monitor)
    : option SimpleE133Monitor :=
  match op with
  | OpAddIP ip => Some (AddIP ip m)
  | OpOnTCPConnect ip port sock ok => OnTCPConnect ip port sock ok m
  | OpSocketUnhealthy p => SocketUnhealthy p m
  | OpSocketClosed ip => SocketClosed ip m
  | OpE133DataReceived header => E133DataReceived header m
  end.

Fixpoint run (ops : list Op) (m : SimpleE133Monitor)
    : option SimpleE133Monitor :=
  match ops with
  | [] => Some m
  | op :: ops => m' ← step op m; run ops m'
  end.

(** The events an operation added to the trace of [m]. *)
Definition events_since (m m' : SimpleE133Monitor) : list Event :=
  drop (length (trace m)) (trace m').

(** ** Start-up: [main]

    [ParseOptions] has filled in the options.  [FromString] is
    [IPV4Address::FromString]; [pid_helper_Init] and [slp_thread_Init] are
    the answers of [PidStoreHelper::Init] and [SlpThread::Init]. *)
Record options := mkOptions {
  help : bool;
  log_level_opt : log_level;
  target_addresses : string;
  pid_file : string
}.

(** Modelled from the spec: [ola::StringSplit] (StringUtils, elsewhere in
    the repository) with the delimiter that [main] passes.  The target list
    is comma-separated: the input is cut at every comma, so a list with n
    commas has n + 1 elements. *)
Fixpoint StringSplit (input : string) : list string :=
  match input with
  | EmptyString => [EmptyString]
  | String c rest =>
      if Ascii.eqb c ","%char then EmptyString :: StringSplit rest
      else
        match StringSplit rest with
        | tok :: toks => String c tok :: toks
        | [] => [String c EmptyString]
        end
  end.

(** How the process ends up: it left through [exit], or the monitor was
    built and [Run] entered.  Both carry what was called until then. *)
Inductive Outcome :=
  | Exited (code : ExitCode) (called : list Event)
  | Started (m : SimpleE133Monitor).

(** [DisplayHelpAndExit]: the usage text goes to the standard output and
    the process leaves with [exit(0)]. *)
Definition DisplayHelpAndExit (called : list Event) : Outcome :=
  Exited EXIT_SUCCESS (called ++ [DisplayHelp]).

(** The loop over the tokens: [None] when [FromString] rejects one (the
    branch that warns and calls [DisplayHelpAndExit]). *)
Fixpoint parse_targets (FromString : string → option IPV4Address)
    (tokens : list string) (targets : list IPV4Address)
    : option (list IPV4Address) :=
  match tokens with
  | [] => Some targets
  | tok :: tokens =>
      match FromString tok with
      | None => None
      | Some ip_address =>
          parse_targets FromString tokens (targets ++ [ip_address])
      end
  end.

(** [SimpleE133Monitor::Init] *)
Definition Init (slp_thread_Init : bool) (m : SimpleE133Monitor)
    : bool * SimpleE133Monitor :=
  if negb slp_thread_Init then
    (false, emit (Log OLA_LOG_WARN "SlpThread Init() failed") m)
  else (true, emit SlpStart m).

Definition main (FromString : string → option IPV4Address)
    (pid_helper_Init slp_thread_Init : bool) (opts : options) : Outcome :=
  if help opts then DisplayHelpAndExit []
  else
    let parsed :=
      if bool_decide (target_addresses opts = EmptyString) then Some []
      else parse_targets FromString (StringSplit (target_addresses opts)) []
    in
    match parsed with
    | None => DisplayHelpAndExit [Log OLA_LOG_WARN "Invalid address"]
    | Some targets =>
        if negb pid_helper_Init then Exited EX_OSFILE []
        else
          let '(ok, monitor) := Init slp_thread_Init monitor_new in
          if negb ok then Exited EX_UNAVAILABLE (trace monitor)
          else
            let monitor :=
              match targets with
              | [] =>
                  (* this blocks while the slp thread does its thing *)
                  PopulateResponderList monitor
              | _ :: _ =>
                  (* manually add the responder IPs *)
                  foldl (λ mon ip, AddIP ip mon) monitor targets
              end in
            Started (Run monitor)
    end.

(** ** The retry policy handed to the connector *)
Module Backoff.
Local Open Scope Z_scope.

(** [ola::TimeInterval(sec, usec)], in microseconds. *)
Definition TimeInterval (sec usec : Z) : Z := sec * 1000000 + usec.

(** 5 second connect() timeout *)
Definition TCP_CONNECT_TIMEOUT : Z := TimeInterval 5 0.
Definition INITIAL_TCP_RETRY_DELAY : Z := TimeInterval 5 0.
Definition MAX_TCP_RETRY_DELAY : Z := TimeInterval 60 0.

(** Modelled from the spec: the growth law, which section 3 leaves as a
    parameter of the policy.  [Doubling] is the law it calls typical,
    [initial * 2^(attemptCount-1)]; [Linear] is the law that the name of
    the class the monitor instantiates, [LinearBackoffPolicy], stands
    for. *)
Inductive GrowthLaw := Linear | Doubling.

(** Modelled from the spec: the delay before the cap, by growth law. *)
Definition grow (law : GrowthLaw) (initial attemptCount : Z) : Z :=
  match law with
  | Linear => initial * attemptCount
  | Doubling => initial * 2 ^ (attemptCount - 1)
  end.

(** Modelled from the spec: [NextDelay] of section 4.1 for a policy
    constructed from an initial and a maximum delay
    ([ola::network::LinearBackoffPolicy], elsewhere in the repository): the
    growth law capped by the maximum, as in section 3. *)
Definition NextDelay (law : GrowthLaw) (initial maximum : Z)
    (attemptCount : Z) : Z :=
  Z.min (grow law initial attemptCount) maximum.

(** [m_backoff_policy(INITIAL_TCP_RETRY_DELAY, MAX_TCP_RETRY_DELAY)] *)
Definition m_backoff_policy (law : GrowthLaw) : Z → Z :=
  NextDelay law INITIAL_TCP_RETRY_DELAY MAX_TCP_RETRY_DELAY.
End Backoff.

(** * Vocabulary of the properties *)

(** The health checked connection that OnTCPConnect constructs. *)
Definition new_hc (m : SimpleE133Monitor) (s : TcpSocket) (p : loc)
    : E133HealthCheckedConnection :=
  {| hc_id := next_hc m; hc_socket := s; hc_node := p |}.

(** The state of an entry after [SocketClosed]: both slots reset, the
    attempt counter kept. *)
Definition torn_down (ns : NodeTCPState) : NodeTCPState :=
  {| socket := None; health_checked_connection := None;
     connection_attempts := connection_attempts ns |}.

Definition teardown_events (ns : NodeTCPState) : list Event :=
  match health_checked_connection ns with
  | Some h => [DeleteHealthCheckedConnection h]
  | None => []
  end ++
  [RemoveReadDescriptor (socket ns)] ++
  match socket ns with Some s => [DeleteSocket s] | None => [] end ++
  [Terminate].

(** Every address is mapped to an allocated node state, and no two
    addresses share one. *)
Definition wf (m : SimpleE133Monitor) : Prop :=
  (∀ k p, m_ip_map m !! k = Some p → is_Some (heap m !! p)) ∧
  (∀ k1 k2 p,
     m_ip_map m !! k1 = Some p → m_ip_map m !! k2 = Some p → k1 = k2).

(** What [SocketClosed] and [SocketUnhealthy] leave behind for the
    address [ip] whose entry was [ns]: the entry torn down, the table and
    every other address as before, no call on the connector, and the
    select server told to terminate. *)
Definition torn_down_only (m : SimpleE133Monitor) (ip : IPV4Address)
    (ns : NodeTCPState) (m' : SimpleE133Monitor) : Prop :=
  node_of m' ip = Some (torn_down ns) ∧
  m_ip_map m' = m_ip_map m ∧
  (∀ ip', ip' ≠ ip → node_of m' ip' = node_of m ip') ∧
  (∀ a port policy, AddEndpoint a port policy ∉ events_since m m') ∧
  Terminate ∈ events_since m m'.

(** An entry with a health checked connection has a socket. *)
Definition node_ok (ns : NodeTCPState) : Prop :=
  is_Some (health_checked_connection ns) → is_Some (socket ns).

(** The health checked connections constructed so far, oldest first. *)
Definition constructed (tr : list Event)
    : list E133HealthCheckedConnection :=
  omap (λ e, match e with
             | NewHealthCheckedConnection h => Some h
             | _ => None
             end) tr.

(** The live health checked connections of the entry at [p]: constructed
    with that node state bound into their unhealthy callback, and not
    deleted since.  The slot of the entry can point to one of them only. *)
Definition live_health_checks (m : SimpleE133Monitor) (p : loc)
    : list E133HealthCheckedConnection :=
  filter (λ h, hc_node h = p ∧ DeleteHealthCheckedConnection h ∉ trace m)
    (constructed (trace m)).

(** The live sockets of the entry at [p]: handed to [OnTCPConnect] for
    its address, where a health checked connection was constructed around
    them, and not deleted since. *)
Definition live_sockets (m : SimpleE133Monitor) (p : loc)
    : list TcpSocket :=
  filter (λ s, DeleteSocket s ∉ trace m)
    (remove_dups
       (hc_socket <$> filter (λ h, hc_node h = p) (constructed (trace m)))).

Definition Inv (m : SimpleE133Monitor) : Prop :=
  wf m ∧ ∀ p ns, heap m !! p = Some ns → node_ok ns.

(** The connector's side of the bargain that the invariant rests on: a
    connection whose [Setup()] fails is not delivered for an address
    whose entry still has a health checked connection attached. *)
Definition no_failed_setup_over_health_check (op : Op)
    (m : SimpleE133Monitor) : Prop :=
  match op with
  | OpOnTCPConnect ip _ _ false =>
      ∀ ns, node_of m ip = Some ns → health_checked_connection ns = None
  | _ => True
  end.

(** The states the monitor can be in after a sequence of callbacks, from
    construction on, when the connector keeps to the condition above. *)
Inductive reachable : SimpleE133Monitor → Prop :=
  | reachable_new : reachable monitor_new
  | reachable_step op m m' :
      reachable m →
      no_failed_setup_over_health_check op m →
      step op m = Some m' →
      reachable m'.

(** The condition above, at every step of a run. *)
Fixpoint admissible_run (ops : list Op) (m : SimpleE133Monitor) : Prop :=
  match ops with
  | [] => True
  | op :: ops =>
      no_failed_setup_over_health_check op m ∧
      match step op m with
      | Some m' => admissible_run ops m'
      | None => True
      end
  end.

(** What the loop over the targets maintains: the invariant of the table,
    a connection request on record for every tracked address, and no
    discovery. *)
Definition targets_added (m : SimpleE133Monitor) : Prop :=
  Inv m ∧
  (∀ ip, is_Some (m_ip_map m !! AsInt ip) →
         AddEndpoint ip E133_PORT m_backoff_policy_ref ∈ trace m) ∧
  Discover ∉ trace m.

(** ** Example data: two nodes, 10.0.0.1 and 10.0.0.2 *)

Definition ipA : IPV4Address := mkIP 167772161.

Definition ipB : IPV4Address := mkIP 167772162.

Definition sockA : TcpSocket := mkSocket 7 ipA.

Definition sockA' : TcpSocket := mkSocket 8 ipA.

Definition sockB : TcpSocket := mkSocket 9 ipB.

(** Both nodes were added, and the connection to the first is up. *)
Definition both_added_A_connected : list Op :=
  [OpAddIP ipA; OpAddIP ipB; OpOnTCPConnect ipA 5569 (Some sockA) true].

Definition hcA : E133HealthCheckedConnection :=
  {| hc_id := 0; hc_socket := sockA; hc_node := 1%positive |}.

(** The health checked connection that a second connection to 10.0.0.1
    constructs. *)
Definition hcA' : E133HealthCheckedConnection :=
  {| hc_id := 1; hc_socket := sockA'; hc_node := 1%positive |}.

(** The state after [both_added_A_connected]. *)
Definition monitor_A_connected : SimpleE133Monitor :=
  {| m_ip_map := {[ AsInt ipA := 1%positive; AsInt ipB := 2%positive ]};
     heap :=
       {[ 1%positive :=
            {| socket := Some sockA;
               health_checked_connection := Some hcA;
               connection_attempts := 1 |};
          2%positive :=
            {| socket := None; health_checked_connection := None;
               connection_attempts := 1 |} ]};
     next_hc := 1;
     trace :=
       [Log OLA_LOG_INFO "Opening TCP connection to";
        AddEndpoint ipA E133_PORT m_backoff_policy_ref;
        Log OLA_LOG_INFO "Opening TCP connection to";
        AddEndpoint ipB E133_PORT m_backoff_policy_ref;
        NewHealthCheckedConnection hcA; Setup hcA true;
        SetOnClose sockA ipA; SetOnData sockA; AddReadDescriptor sockA] |}.

(** A frame for endpoint 0 that is recognised as a heartbeat. *)
Definition heartbeat_from (ip : IPV4Address) (t : TransportType) : Frame :=
  {| frame_transport := mkTransportHeader ip t;
     frame_e133 := mkE133Header 0;
     frame_is_heartbeat := true;
     frame_payload := EmptyString |}.

(** A parser that knows the two example nodes, and the options of
    [--targets 10.0.0.1,10.0.0.2]. *)
Definition FromString_example (s : string) : option IPV4Address :=
  if String.eqb s "10.0.0.1" then Some ipA
  else if String.eqb s "10.0.0.2" then Some ipB
  else None.

Definition options_two_targets : options :=
  {| help := false; log_level_opt := OLA_LOG_WARN;
     target_addresses := "10.0.0.1,10.0.0.2"; pid_file := "pids.proto" |}.

(** * The rest of the file *)

(** ** [SimpleE133Monitor::DiscoveryCallback] *)

(** [ola::rdm::UID]: manufacturer id and device id. *)
Record UID := mkUID { manufacturer_id : N; device_id : N }.

(** One round of the loop over the located URLs.  [ParseSlpUrl] is the
    parser of SlpUrlParser.h, which fills in a UID and an address or
    fails; [IsBroadcast] is [UID::IsBroadcast]. *)
Definition located (ParseSlpUrl : string → option (UID * IPV4Address))
    (IsBroadcast : UID → bool) (m : SimpleE133Monitor) (url : string)
    : SimpleE133Monitor :=
  let m := emit (Log OLA_LOG_INFO "Located") m in
  match ParseSlpUrl url with
  | None => m
  | Some (uid, ip) =>
      if IsBroadcast uid then emit (Log OLA_LOG_WARN "UID is broadcast") m
      else AddIP ip m
  end.

Definition DiscoveryCallback
    (ParseSlpUrl : string → option (UID * IPV4Address))
    (IsBroadcast : UID → bool) (ok : bool) (urls : list string)
    (m : SimpleE133Monitor) : SimpleE133Monitor :=
  if ok then foldl (located ParseSlpUrl IsBroadcast) m urls
  else emit (Log OLA_LOG_INFO "SLP discovery failed") m.

(** ** [SimpleE133Monitor::Stop] *)
Definition Stop (m : SimpleE133Monitor) : SimpleE133Monitor :=
  emit Terminate m.

(** ** The destructors *)

(** [delete iter->second]: [~NodeTCPState] deletes the socket and nothing
    else, then the object is freed.  [None] when no object is allocated
    at the pointer. *)
Definition delete_NodeTCPState (p : loc) (m : SimpleE133Monitor)
    : option SimpleE133Monitor :=
  ns ← heap m !! p;
  let m := delete_socket (socket ns) m in
  Some {| m_ip_map := m_ip_map m; heap := delete p (heap m);
          next_hc := next_hc m; trace := trace m |}.

(** The loop of [~SimpleE133Monitor] over the entries of the table. *)
Fixpoint delete_entries (entries : list (N * loc)) (m : SimpleE133Monitor)
    : option SimpleE133Monitor :=
  match entries with
  | [] => Some m
  | (_, p) :: entries => m' ← delete_NodeTCPState p m; delete_entries entries m'
  end.

(** The calls that the destructor makes on the SLP thread. *)
Inductive SlpThreadCall := Join | Cleanup.

(** [~SimpleE133Monitor]: close out all tcp sockets and free state, in
    the order in which the table enumerates its entries, clear the table,
    then join and clean up the SLP thread. *)
Definition SimpleE133Monitor_destroy (m : SimpleE133Monitor)
    : option (SimpleE133Monitor * list SlpThreadCall) :=
  m' ← delete_entries (map_to_list (m_ip_map m)) m;
  Some ({| m_ip_map := ∅; heap := heap m'; next_hc := next_hc m';
           trace := trace m' |}, [Join; Cleanup]).

(** ** [ParseOptions] *)
Module CommandLine.

(** [ola::log_level], all five levels that [--log-level] can select. *)
Inductive log_level :=
  | OLA_LOG_NONE | OLA_LOG_FATAL | OLA_LOG_WARN | OLA_LOG_INFO
  | OLA_LOG_DEBUG.

(** The [options] struct. *)
Record options := mkOptions {
  help : bool;
  level : log_level;
  target_addresses : string;
  pid_file : string
}.

(** What one call of [getopt_long] hands back before it returns -1: the
    option character and [optarg]. *)
Record getopt_result := mkOpt { c : ascii; optarg : string }.

Definition set_level (l : log_level) (opts : options) : options :=
  {| help := help opts; level := l;
     target_addresses := target_addresses opts;
     pid_file := pid_file opts |}.

(** The body of the loop: the [switch] on the option character.
    [atoi] is the C library function. *)
Definition handle_option (atoi : string → Z) (opts : options)
    (r : getopt_result) : options :=
  if Ascii.eqb (c r) "h" then
    {| help := true; level := level opts;
       target_addresses := target_addresses opts;
       pid_file := pid_file opts |}
  else if Ascii.eqb (c r) "l" then
    match atoi (optarg r) with
    | 0%Z => set_level OLA_LOG_NONE opts
    | 1%Z => set_level OLA_LOG_FATAL opts
    | 2%Z => set_level OLA_LOG_WARN opts
    | 3%Z => set_level OLA_LOG_INFO opts
    | 4%Z => set_level OLA_LOG_DEBUG opts
    | _ => opts
    end
  else if Ascii.eqb (c r) "p" then
    {| help := help opts; level := level opts;
       target_addresses := target_addresses opts;
       pid_file := optarg r |}
  else if Ascii.eqb (c r) "t" then
    {| help := help opts; level := level opts;
       target_addresses := optarg r;
       pid_file := pid_file opts |}
  else opts.

Definition ParseOptions (atoi : string → Z) (results : list getopt_result)
    (opts : options) : options :=
  foldl (handle_option atoi) opts results.

(** The level that a [--log-level] argument selects, if any. *)
Definition level_of (n : Z) : option log_level :=
  match n with
  | 0%Z => Some OLA_LOG_NONE
  | 1%Z => Some OLA_LOG_FATAL
  | 2%Z => Some OLA_LOG_WARN
  | 3%Z => Some OLA_LOG_INFO
  | 4%Z => Some OLA_LOG_DEBUG
  | _ => None
  end.

End CommandLine.

(** * Vocabulary of the further properties *)

(** A state that differs from [m] only in what was called since. *)
Definition with_events (m : SimpleE133Monitor) (evs : list Event)
    : SimpleE133Monitor :=
  {| m_ip_map := m_ip_map m; heap := heap m; next_hc := next_hc m;
     trace := trace m ++ evs |}.

(** A state that differs from [m] in one node state, in the number of
    health checked connections constructed and in what was called. *)
Definition updated (m : SimpleE133Monitor) (p : loc) (ns : NodeTCPState)
    (nh : nat) (evs : list Event) : SimpleE133Monitor :=
  {| m_ip_map := m_ip_map m; heap := <[p := ns]> (heap m); next_hc := nh;
     trace := trace m ++ evs |}.

(** The state after [AddIP] for an address that was not tracked. *)
Definition added (ip : IPV4Address) (m : SimpleE133Monitor)
    : SimpleE133Monitor :=
  {| m_ip_map := <[AsInt ip := fresh (dom (heap m))]> (m_ip_map m);
     heap := <[fresh (dom (heap m)) :=
                 {| socket := None; health_checked_connection := None;
                    connection_attempts := 1 |}]> (heap m);
     next_hc := next_hc m;
     trace := trace m ++
       [Log OLA_LOG_INFO "Opening TCP connection to";
        AddEndpoint ip E133_PORT m_backoff_policy_ref] |}.

(** What [delete] of a possibly null pointer calls. *)
Definition hc_deletion (h : option E133HealthCheckedConnection)
    : list Event :=
  match h with Some h => [DeleteHealthCheckedConnection h] | None => [] end.

Definition socket_deletion (s : option TcpSocket) : list Event :=
  match s with Some s => [DeleteSocket s] | None => [] end.

Definition warn_pre_existing (h : option E133HealthCheckedConnection)
    : list Event :=
  match h with
  | Some _ =>
      [Log OLA_LOG_WARN
         "pre-existing health_checked_connection, this is a bug and we'll leak memory!"]
  | None => []
  end.

(** The paths through the five callbacks, one constructor per path, each
    with the state it ends in. *)
Inductive step_spec : Op → SimpleE133Monitor → SimpleE133Monitor → Prop :=
  | spec_AddIP_tracked ip m :
      is_Some (m_ip_map m !! AsInt ip) →
      step_spec (OpAddIP ip) m m
  | spec_AddIP_new ip m :
      m_ip_map m !! AsInt ip = None →
      step_spec (OpAddIP ip) m (added ip m)
  | spec_connect_untracked ip port sock ok m :
      m_ip_map m !! AsInt ip = None →
      step_spec (OpOnTCPConnect ip port sock ok) m
        (with_events m
           (Log OLA_LOG_FATAL "Unable to locate socket for" ::
            match sock with
            | Some s => [Close s; DeleteSocket s]
            | None => []
            end))
  | spec_connect_failed ip port s m p ns :
      m_ip_map m !! AsInt ip = Some p →
      heap m !! p = Some ns →
      step_spec (OpOnTCPConnect ip port (Some s) false) m
        (updated m p
           {| socket := None;
              health_checked_connection := health_checked_connection ns;
              connection_attempts := connection_attempts ns |}
           (S (next_hc m))
           [NewHealthCheckedConnection (new_hc m s p);
            Setup (new_hc m s p) false;
            Log OLA_LOG_WARN "Failed to setup heartbeat controller for";
            DeleteHealthCheckedConnection (new_hc m s p);
            Close s; DeleteSocket s])
  | spec_connect_ok ip port s m p ns :
      m_ip_map m !! AsInt ip = Some p →
      heap m !! p = Some ns →
      step_spec (OpOnTCPConnect ip port (Some s) true) m
        (updated m p
           {| socket := Some s;
              health_checked_connection := Some (new_hc m s p);
              connection_attempts := connection_attempts ns |}
           (S (next_hc m))
           ([NewHealthCheckedConnection (new_hc m s p);
             Setup (new_hc m s p) true] ++
            warn_pre_existing (health_checked_connection ns) ++
            [SetOnClose s ip; SetOnData s; AddReadDescriptor s]))
  | spec_closed_untracked ip m :
      m_ip_map m !! AsInt ip = None →
      step_spec (OpSocketClosed ip) m
        (with_events m
           [Log OLA_LOG_INFO "connection was closed";
            Log OLA_LOG_FATAL "Unable to locate socket for"])
  | spec_closed ip m p ns :
      m_ip_map m !! AsInt ip = Some p →
      heap m !! p = Some ns →
      step_spec (OpSocketClosed ip) m
        (updated m p (torn_down ns) (next_hc m)
           (Log OLA_LOG_INFO "connection was closed" :: teardown_events ns))
  | spec_unhealthy p m ns s m' :
      heap m !! p = Some ns →
      socket ns = Some s →
      step_spec (OpSocketClosed (GetPeer s))
        (updated m p (set_health_checked_connection None ns) (next_hc m)
           (Log OLA_LOG_INFO "connection went unhealthy" ::
            hc_deletion (health_checked_connection ns)))
        m' →
      step_spec (OpSocketUnhealthy p) m m'
  | spec_data_not_tcp header m :
      Transport header ≠ TCP →
      step_spec (OpE133DataReceived header) m m
  | spec_data_untracked header m :
      Transport header = TCP →
      m_ip_map m !! AsInt (SourceIP header) = None →
      step_spec (OpE133DataReceived header) m
        (with_events m
           [Log OLA_LOG_FATAL
              "Received data but unable to lookup socket for"])
  | spec_data_no_health_check header m p ns :
      Transport header = TCP →
      m_ip_map m !! AsInt (SourceIP header) = Some p →
      heap m !! p = Some ns →
      health_checked_connection ns = None →
      step_spec (OpE133DataReceived header) m m
  | spec_data_heartbeat header m p ns h :
      Transport header = TCP →
      m_ip_map m !! AsInt (SourceIP header) = Some p →
      heap m !! p = Some ns →
      health_checked_connection ns = Some h →
      step_spec (OpE133DataReceived header) m
        (with_events m [HeartbeatReceived h]).

(** A condition on the callbacks, at every step of a run. *)
Fixpoint run_satisfies (pre : Op → SimpleE133Monitor → Prop)
    (ops : list Op) (m : SimpleE133Monitor) : Prop :=
  match ops with
  | [] => True
  | op :: ops =>
      pre op m ∧
      match step op m with
      | Some m' => run_satisfies pre ops m'
      | None => True
      end
  end.

(** How often an event occurs in a list of events. *)
Definition count_event (e : Event) (evs : list Event) : nat :=
  length (filter (λ e', e' = e) evs).

(** No dangling health checked connection: the one an entry holds is
    bound to that entry's node state, has been constructed, and has not
    been deleted; and nothing is deleted twice. *)
Definition hc_safe (m : SimpleE133Monitor) : Prop :=
  (∀ p ns h,
     heap m !! p = Some ns → health_checked_connection ns = Some h →
     hc_node h = p ∧ (hc_id h < next_hc m)%nat ∧
     DeleteHealthCheckedConnection h ∉ trace m) ∧
  (∀ h, DeleteHealthCheckedConnection h ∈ trace m →
        (hc_id h < next_hc m)%nat) ∧
  (∀ h, (count_event (DeleteHealthCheckedConnection h) (trace m) ≤ 1)%nat).

(** In a list of events, no heartbeat is passed to a health checked
    connection after it was deleted. *)
Definition no_heartbeat_after_delete (tr : list Event) : Prop :=
  ∀ l1 l2 h,
    tr = l1 ++ HeartbeatReceived h :: l2 →
    DeleteHealthCheckedConnection h ∉ l1.

(** The connector hands over sockets it has just connected: not one that
    was deleted, and not one that an entry holds. *)
Definition delivers_new_socket (op : Op) (m : SimpleE133Monitor) : Prop :=
  match op with
  | OpOnTCPConnect _ _ (Some s) _ =>
      (DeleteSocket s ∉ trace m) ∧
      ∀ p ns, heap m !! p = Some ns → socket ns ≠ Some s
  | _ => True
  end.

(** No dangling socket: the socket an entry holds has not been deleted,
    no two node states hold the same socket, and no socket is deleted
    twice. *)
Definition sockets_safe (m : SimpleE133Monitor) : Prop :=
  (∀ p ns s, heap m !! p = Some ns → socket ns = Some s →
             DeleteSocket s ∉ trace m) ∧
  (∀ p q ns nq s,
     heap m !! p = Some ns → heap m !! q = Some nq →
     socket ns = Some s → socket nq = Some s → p = q) ∧
  (∀ s, (count_event (DeleteSocket s) (trace m) ≤ 1)%nat).

(** The health checked connection of an entry is bound to the entry's own
    node state and watches the entry's own socket. *)
Definition hc_bound (m : SimpleE133Monitor) : Prop :=
  ∀ p ns h,
    heap m !! p = Some ns → health_checked_connection ns = Some h →
    hc_node h = p ∧ socket ns = Some (hc_socket h).

(** Both conditions can be checked on a concrete run. *)
#[global] Instance delivers_new_socket_dec op m :
  Decision (delivers_new_socket op m).
Proof.
  destruct op as [ip|ip port [s|] ok|p|ip|header]; simpl; apply _.
Defined.

#[global] Instance run_satisfies_dec pre
    (pre_dec : ∀ op m, Decision (pre op m)) ops m :
  Decision (run_satisfies pre ops m).
Proof.
  revert m. induction ops as [|op ops IH]; intros m; simpl; [apply _|].
  destruct (step op m); apply _.
Defined.

(** The callbacks that close the connection of a tracked address:
    [SocketClosed] for a tracked address, and [SocketUnhealthy] for a node
    state whose socket reports a tracked address as its peer. *)
Definition closes_tracked (op : Op) (m : SimpleE133Monitor) : Prop :=
  match op with
  | OpSocketClosed ip => is_Some (m_ip_map m !! AsInt ip)
  | OpSocketUnhealthy p =>
      ∃ ns s, heap m !! p = Some ns ∧ socket ns = Some s ∧
              is_Some (m_ip_map m !! AsInt (GetPeer s))
  | _ => False
  end.

(** The address that [DiscoveryCallback] takes from a URL: the URL must
    parse and its UID must not be a broadcast UID. *)
Definition accepted (ParseSlpUrl : string → option (UID * IPV4Address))
    (IsBroadcast : UID → bool) (url : string) : option IPV4Address :=
  match ParseSlpUrl url with
  | Some (uid, ip) => if IsBroadcast uid then None else Some ip
  | None => None
  end.

(** How often the connector was asked to connect to an address. *)
Definition connection_requests (ip : IPV4Address) (evs : list Event) : nat :=
  count_event (AddEndpoint ip E133_PORT m_backoff_policy_ref) evs.

(** [m'] comes from [m] by adding the addresses [ips] that were not
    tracked, and by nothing else but log lines: no entry is lost or
    re-pointed, no existing node state is touched, and the connector is
    asked to connect exactly once for each address that is new. *)
Definition grows_by (m m' : SimpleE133Monitor) (ips : list IPV4Address)
    : Prop :=
  m_ip_map m ⊆ m_ip_map m' ∧
  (∀ ip, is_Some (m_ip_map m' !! AsInt ip) ↔
         is_Some (m_ip_map m !! AsInt ip) ∨ ip ∈ ips) ∧
  (∀ p, is_Some (heap m !! p) → heap m' !! p = heap m !! p) ∧
  next_hc m' = next_hc m ∧
  (Inv m → Inv m') ∧
  ∃ evs,
    trace m' = trace m ++ evs ∧
    (∀ e, e ∈ evs →
          (∃ level text, e = Log level text) ∨
          (∃ ip, e = AddEndpoint ip E133_PORT m_backoff_policy_ref)) ∧
    (∀ ip, (connection_requests ip evs ≤ 1)%nat ∧
           (connection_requests ip evs = 1%nat ↔
            m_ip_map m !! AsInt ip = None ∧ ip ∈ ips)).

(** The target list names 10.0.0.1 twice. *)
Definition options_same_target_twice : options :=
  {| help := false; log_level_opt := OLA_LOG_WARN;
     target_addresses := "10.0.0.1,10.0.0.1"; pid_file := "pids.proto" |}.

(** The argument that an option carries when it is the option [ch]. *)
Definition argument_of (ch : ascii) (r : CommandLine.getopt_result)
    : option string :=
  if Ascii.eqb (CommandLine.c r) ch then Some (CommandLine.optarg r)
  else None.

(** The level that a [-l] option selects, when it selects one. *)
Definition level_selected (atoi : string → Z)
    (r : CommandLine.getopt_result) : option CommandLine.log_level :=
  if Ascii.eqb (CommandLine.c r) "l"
  then CommandLine.level_of (atoi (CommandLine.optarg r))
  else None.

(** The addresses a callback is about: the one it is called with; for
    [SocketUnhealthy], the address of the node state it is bound to and the
    peer address that the socket reports; none for received data. *)
Definition concerns (op : Op) (m : SimpleE133Monitor) (ip' : IPV4Address)
    : Prop :=
  match op with
  | OpAddIP ip | OpOnTCPConnect ip _ _ _ | OpSocketClosed ip => ip' = ip
  | OpSocketUnhealthy p =>
      m_ip_map m !! AsInt ip' = Some p ∨
      ∃ ns s, heap m !! p = Some ns ∧ socket ns = Some s ∧ ip' = GetPeer s
  | OpE133DataReceived _ => False
  end.

(** ** Proof automation *)

(** Unfold the state updates down to records. *)
Ltac state_simpl :=
  unfold delete_hc, delete_socket, emit, store, map_set, bump_hc,
    set_socket, set_health_checked_connection, incr_connection_attempts,
    NodeTCPState_new in *;
  simpl in *.

(** Membership of an event in an explicit list of events. *)
Ltac event_elem :=
  rewrite ?elem_of_app, ?elem_of_cons, ?elem_of_nil; intuition congruence.

(** * Properties *)

(** ** Traces *)

Lemma events_since_app (m m' : SimpleE133Monitor) (evs : list Event) :
  trace m' = trace m ++ evs → events_since m m' = evs.
Proof.
  unfold events_since. intros ->. by rewrite drop_app_length.
Qed.

(** ** What each callback does to a tracked and to an untracked address *)

Lemma AddIP_tracked ip m :
  is_Some (m_ip_map m !! AsInt ip) → AddIP ip m = m.
Proof. intros [p Hp]. unfold AddIP. by rewrite Hp. Qed.

Lemma AddIP_untracked ip m :
  m_ip_map m !! AsInt ip = None →
  AddIP ip m =
  {| m_ip_map := <[AsInt ip := fresh (dom (heap m))]> (m_ip_map m);
     heap := <[fresh (dom (heap m)) :=
                 {| socket := None; health_checked_connection := None;
                    connection_attempts := 1 |}]> (heap m);
     next_hc := next_hc m;
     trace := trace m ++
       [Log OLA_LOG_INFO "Opening TCP connection to";
        AddEndpoint ip E133_PORT m_backoff_policy_ref] |}.
Proof.
  intros Hk. unfold AddIP. rewrite Hk. state_simpl.
  by rewrite <- app_assoc.
Qed.

Lemma AddIP_is_tracked ip m : is_Some (m_ip_map (AddIP ip m) !! AsInt ip).
Proof.
  destruct (m_ip_map m !! AsInt ip) as [p|] eqn:Hk.
  - rewrite AddIP_tracked; rewrite Hk; eauto.
  - rewrite AddIP_untracked by done. simpl. rewrite lookup_insert_eq. eauto.
Qed.

Lemma AddIP_again ip m : AddIP ip (AddIP ip m) = AddIP ip m.
Proof. apply AddIP_tracked, AddIP_is_tracked. Qed.

Lemma AddIP_repeated ip n m :
  Nat.iter n (AddIP ip) (AddIP ip m) = AddIP ip m.
Proof.
  induction n as [|n IH]; simpl; [done|]. rewrite IH. apply AddIP_again.
Qed.

Lemma AddIP_tracked_iff ip m k :
  is_Some (m_ip_map (AddIP ip m) !! k) ↔
  k = AsInt ip ∨ is_Some (m_ip_map m !! k).
Proof.
  destruct (m_ip_map m !! AsInt ip) as [p|] eqn:Hk.
  - rewrite AddIP_tracked by (rewrite Hk; eauto). split; [by right|].
    intros [->|?]; [rewrite Hk; eauto | done].
  - rewrite AddIP_untracked by done. simpl.
    destruct (decide (AsInt ip = k)) as [<-|Hne].
    + rewrite lookup_insert_eq. split; eauto.
    + rewrite lookup_insert_ne by done. split; [by right|].
      by intros [->|?].
Qed.

Lemma OnTCPConnect_setup_failed ip port s m p ns :
  m_ip_map m !! AsInt ip = Some p →
  heap m !! p = Some ns →
  OnTCPConnect ip port (Some s) false m =
  Some {| m_ip_map := m_ip_map m;
          heap := <[p := {| socket := None;
                            health_checked_connection :=
                              health_checked_connection ns;
                            connection_attempts := connection_attempts ns |}]>
                    (heap m);
          next_hc := S (next_hc m);
          trace := trace m ++
            [NewHealthCheckedConnection (new_hc m s p);
             Setup (new_hc m s p) false;
             Log OLA_LOG_WARN "Failed to setup heartbeat controller for";
             DeleteHealthCheckedConnection (new_hc m s p);
             Close s; DeleteSocket s] |}.
Proof.
  intros Hk Hp. unfold OnTCPConnect. rewrite Hk. simpl. rewrite Hp. simpl.
  state_simpl. by rewrite insert_insert_eq, <- !app_assoc.
Qed.

Lemma OnTCPConnect_setup_ok ip port s m p ns :
  m_ip_map m !! AsInt ip = Some p →
  heap m !! p = Some ns →
  OnTCPConnect ip port (Some s) true m =
  Some {| m_ip_map := m_ip_map m;
          heap := <[p := {| socket := Some s;
                            health_checked_connection :=
                              Some (new_hc m s p);
                            connection_attempts := connection_attempts ns |}]>
                    (heap m);
          next_hc := S (next_hc m);
          trace := trace m ++
            [NewHealthCheckedConnection (new_hc m s p);
             Setup (new_hc m s p) true] ++
            match health_checked_connection ns with
            | Some _ =>
                [Log OLA_LOG_WARN
                   "pre-existing health_checked_connection, this is a bug and we'll leak memory!"]
            | None => []
            end ++
            [SetOnClose s ip; SetOnData s; AddReadDescriptor s] |}.
Proof.
  intros Hk Hp. unfold OnTCPConnect. rewrite Hk. simpl. rewrite Hp. simpl.
  destruct (health_checked_connection ns); state_simpl;
    by rewrite insert_insert_eq, <- !app_assoc.
Qed.

Lemma SocketClosed_tracked ip m p ns :
  m_ip_map m !! AsInt ip = Some p →
  heap m !! p = Some ns →
  SocketClosed ip m =
  Some {| m_ip_map := m_ip_map m;
          heap := <[p := torn_down ns]> (heap m);
          next_hc := next_hc m;
          trace := trace m ++ Log OLA_LOG_INFO "connection was closed"
                             :: teardown_events ns |}.
Proof.
  intros Hk Hp. unfold SocketClosed. simpl. rewrite Hk. simpl.
  rewrite Hp. simpl. f_equal.
  destruct ns as [[s|] [h|] n]; unfold teardown_events, torn_down;
    state_simpl; rewrite ?insert_insert_eq, <- ?app_assoc; reflexivity.
Qed.

Lemma SocketClosed_untracked ip m :
  m_ip_map m !! AsInt ip = None →
  SocketClosed ip m =
  Some (emit (Log OLA_LOG_FATAL "Unable to locate socket for")
          (emit (Log OLA_LOG_INFO "connection was closed") m)).
Proof. intros Hk. unfold SocketClosed. simpl. by rewrite Hk. Qed.

Lemma SocketUnhealthy_same_entry p m ns s :
  heap m !! p = Some ns →
  socket ns = Some s →
  m_ip_map m !! AsInt (GetPeer s) = Some p →
  SocketUnhealthy p m =
  Some {| m_ip_map := m_ip_map m;
          heap := <[p := torn_down ns]> (heap m);
          next_hc := next_hc m;
          trace := trace m ++
            Log OLA_LOG_INFO "connection went unhealthy" ::
            match health_checked_connection ns with
            | Some h => [DeleteHealthCheckedConnection h]
            | None => []
            end ++
            [Log OLA_LOG_INFO "connection was closed";
             RemoveReadDescriptor (Some s); DeleteSocket s; Terminate] |}.
Proof.
  intros Hp Hs Hk. unfold SocketUnhealthy. simpl. rewrite Hp. simpl.
  rewrite Hs. simpl.
  rewrite (SocketClosed_tracked _ _ p
             (set_health_checked_connection None ns)).
  - f_equal. destruct ns as [s0 [h|] n]; simpl in Hs; subst s0;
      unfold teardown_events, torn_down; state_simpl;
      rewrite ?insert_insert_eq, <- ?app_assoc; reflexivity.
  - destruct (health_checked_connection ns); state_simpl; exact Hk.
  - destruct (health_checked_connection ns); state_simpl;
      by rewrite lookup_insert_eq.
Qed.

(** [E133DataReceived] never changes the table or a node state; the four
    ways through it, with what each adds to the trace. *)
Lemma E133DataReceived_cases header m m' :
  E133DataReceived header m = Some m' →
  m_ip_map m' = m_ip_map m ∧ heap m' = heap m ∧ next_hc m' = next_hc m ∧
  ((∃ ns h, Transport header = TCP ∧
            node_of m (SourceIP header) = Some ns ∧
            health_checked_connection ns = Some h ∧
            trace m' = trace m ++ [HeartbeatReceived h]) ∨
   (Transport header ≠ TCP ∧ trace m' = trace m ++ []) ∨
   (Transport header = TCP ∧
    m_ip_map m !! AsInt (SourceIP header) = None ∧
    trace m' = trace m ++
      [Log OLA_LOG_FATAL "Received data but unable to lookup socket for"]) ∨
   (Transport header = TCP ∧
    (∃ ns, node_of m (SourceIP header) = Some ns ∧
           health_checked_connection ns = None) ∧
    trace m' = trace m ++ [])).
Proof.
  unfold E133DataReceived, node_of. case_bool_decide as Ht; simpl.
  - destruct (m_ip_map m !! AsInt (SourceIP header)) as [p|] eqn:Hk; simpl.
    + destruct (heap m !! p) as [ns|] eqn:Hp; simpl; [|done].
      destruct (health_checked_connection ns) as [h|] eqn:Hh;
        intros [= <-]; repeat split; simpl.
      * left. by exists ns, h.
      * right. right. right. rewrite app_nil_r. repeat split; [done|].
        by exists ns.
    + intros [= <-]. repeat split. right. right. left. by repeat split.
  - intros [= <-]. repeat split. right. left. by rewrite app_nil_r.
Qed.

(** ** The table and the objects it points to *)

Lemma wf_new : wf monitor_new.
Proof. split; intros *; simpl; by rewrite lookup_empty. Qed.

Lemma IPV4Address_neq (a b : IPV4Address) : a ≠ b → AsInt a ≠ AsInt b.
Proof. destruct a, b; simpl; congruence. Qed.

(** Writing through the pointer of one address leaves what the other
    addresses see unchanged. *)
Lemma node_of_store_other m ip ip' p ns nh tr :
  wf m → m_ip_map m !! AsInt ip = Some p → ip' ≠ ip →
  node_of {| m_ip_map := m_ip_map m; heap := <[p := ns]> (heap m);
             next_hc := nh; trace := tr |} ip' = node_of m ip'.
Proof.
  intros [_ Hinj] Hk Hne. unfold node_of. simpl.
  destruct (m_ip_map m !! AsInt ip') as [q|] eqn:Hq; simpl; [|done].
  rewrite lookup_insert_ne; [done|].
  intros ->. apply IPV4Address_neq in Hne. apply Hne. eauto.
Qed.

Lemma tracked_node_of m ip :
  wf m → is_Some (m_ip_map m !! AsInt ip) → is_Some (node_of m ip).
Proof.
  intros [Hal _] [p Hp]. unfold node_of. rewrite Hp. simpl. eauto.
Qed.

Lemma Inv_new : Inv monitor_new.
Proof.
  split; [apply wf_new|]. intros p ns. simpl. by rewrite lookup_empty.
Qed.

Lemma Inv_update m p ns0 ns nh tr :
  Inv m → heap m !! p = Some ns0 → node_ok ns →
  Inv {| m_ip_map := m_ip_map m; heap := <[p := ns]> (heap m);
         next_hc := nh; trace := tr |}.
Proof.
  intros [[Hal Hinj] Hok] Hp Hns. repeat split; simpl.
  - intros k q Hk. destruct (decide (p = q)) as [->|Hne].
    + rewrite lookup_insert_eq. eauto.
    + rewrite lookup_insert_ne; eauto.
  - exact Hinj.
  - intros q ns'. destruct (decide (p = q)) as [->|Hne].
    + rewrite lookup_insert_eq. by intros [= <-].
    + rewrite lookup_insert_ne; eauto.
Qed.

Lemma Inv_AddIP ip m : Inv m → Inv (AddIP ip m).
Proof.
  intros HI. unfold AddIP.
  destruct (m_ip_map m !! AsInt ip) as [q|] eqn:Hk; [done|].
  destruct HI as [[Hal Hinj] Hok]. state_simpl.
  assert (Hfresh : heap m !! fresh (dom (heap m)) = None).
  { apply not_elem_of_dom, is_fresh. }
  repeat split; simpl.
  - intros k q. destruct (decide (AsInt ip = k)) as [<-|Hne].
    + rewrite lookup_insert_eq. intros [= <-]. rewrite lookup_insert_eq. eauto.
    + rewrite lookup_insert_ne by done. intros Hq.
      destruct (Hal _ _ Hq) as [ns Hns].
      rewrite lookup_insert_ne; [eauto|]. intros <-. congruence.
  - intros k1 k2 q.
    destruct (decide (AsInt ip = k1)) as [<-|Hne1];
      destruct (decide (AsInt ip = k2)) as [<-|Hne2];
      rewrite ?lookup_insert_eq, ?lookup_insert_ne by done; [done | | |eauto].
    + intros [= <-] Hq. destruct (Hal _ _ Hq) as [ns Hns]. congruence.
    + intros Hq [= <-]. destruct (Hal _ _ Hq) as [ns Hns]. congruence.
  - intros q ns'. destruct (decide (fresh (dom (heap m)) = q)) as [<-|Hne].
    + rewrite lookup_insert_eq. intros [= <-] [h Hh]. discriminate.
    + rewrite lookup_insert_ne; eauto.
Qed.

Lemma Inv_SocketClosed ip m m' :
  Inv m → SocketClosed ip m = Some m' → Inv m'.
Proof.
  intros HI. destruct (m_ip_map m !! AsInt ip) as [p|] eqn:Hk.
  - destruct (heap m !! p) as [ns|] eqn:Hp.
    + rewrite (SocketClosed_tracked _ _ _ _ Hk Hp). intros [= <-].
      eapply Inv_update; [done..|]. intros [h Hh]. discriminate.
    + unfold SocketClosed. simpl. rewrite Hk. simpl. by rewrite Hp.
  - rewrite (SocketClosed_untracked _ _ Hk). by intros [= <-].
Qed.

Lemma Inv_SocketUnhealthy p m m' :
  Inv m → SocketUnhealthy p m = Some m' → Inv m'.
Proof.
  intros HI. unfold SocketUnhealthy. simpl.
  destruct (heap m !! p) as [ns|] eqn:Hp; simpl; [|done].
  destruct (socket ns) as [s|] eqn:Hs; simpl; [|done].
  apply Inv_SocketClosed.
  destruct (health_checked_connection ns); state_simpl;
    (eapply Inv_update; [done..|]); intros [h Hh]; discriminate.
Qed.

Lemma Inv_E133DataReceived header m m' :
  Inv m → E133DataReceived header m = Some m' → Inv m'.
Proof.
  intros HI. unfold E133DataReceived.
  destruct (negb _); [by intros [= <-]|].
  destruct (m_ip_map m !! _) as [p|]; [|by intros [= <-]].
  destruct (heap m !! p) as [ns|]; simpl; [|done].
  destruct (health_checked_connection ns); by intros [= <-].
Qed.

Lemma Inv_OnTCPConnect ip port sock ok m m' :
  Inv m →
  no_failed_setup_over_health_check (OpOnTCPConnect ip port sock ok) m →
  OnTCPConnect ip port sock ok m = Some m' → Inv m'.
Proof.
  intros HI Hadm. unfold OnTCPConnect.
  destruct (m_ip_map m !! AsInt ip) as [p|] eqn:Hk.
  - destruct (heap m !! p) as [ns|] eqn:Hp; simpl; [|done].
    destruct sock as [s|]; simpl; [|done].
    destruct ok; simpl.
    + destruct (health_checked_connection ns); intros [= <-]; state_simpl;
        rewrite insert_insert_eq;
        (eapply Inv_update; [done..|]); intros _; simpl; eauto.
    + intros [= <-]. state_simpl. rewrite insert_insert_eq.
      eapply Inv_update; [done..|]. simpl.
      rewrite (Hadm ns); [by intros [? ?]|].
      unfold node_of. rewrite Hk. simpl. exact Hp.
  - destruct sock; by intros [= <-].
Qed.

Lemma Inv_step op m m' :
  Inv m → no_failed_setup_over_health_check op m →
  step op m = Some m' → Inv m'.
Proof.
  intros HI Hadm. destruct op; simpl.
  - intros [= <-]. by apply Inv_AddIP.
  - by apply Inv_OnTCPConnect.
  - by apply Inv_SocketUnhealthy.
  - by apply Inv_SocketClosed.
  - by apply Inv_E133DataReceived.
Qed.

Lemma reachable_Inv m : reachable m → Inv m.
Proof.
  induction 1 as [|op m m' _ IH Hadm Hstep]; [apply Inv_new|].
  by eapply Inv_step.
Qed.

Lemma run_reachable ops m m' :
  reachable m → admissible_run ops m → run ops m = Some m' → reachable m'.
Proof.
  revert m. induction ops as [|op ops IH]; intros m Hr Hadm; simpl.
  - by intros [= <-].
  - destruct Hadm as [Hop Hrest].
    destruct (step op m) as [m1|] eqn:Hstep; simpl; [|done].
    apply IH; [|done]. by eapply reachable_step.
Qed.

(** ** The example run *)

Lemma run_both_added_A_connected :
  run both_added_A_connected monitor_new = Some monitor_A_connected.
Proof. vm_compute. reflexivity. Qed.

Lemma admissible_both_added_A_connected :
  admissible_run both_added_A_connected monitor_new.
Proof. simpl. repeat split. Qed.

Lemma reachable_A_connected : reachable monitor_A_connected.
Proof.
  apply (run_reachable both_added_A_connected monitor_new);
    [apply reachable_new | apply admissible_both_added_A_connected
    | apply run_both_added_A_connected].
Qed.

(** ** C1: teardown on close and on unhealthy *)

Lemma teardown_events_no_AddEndpoint ns a port policy :
  AddEndpoint a port policy ∉ teardown_events ns.
Proof.
  unfold teardown_events.
  destruct (health_checked_connection ns), (socket ns); simpl;
    event_elem.
Qed.

Lemma teardown_events_Terminate ns : Terminate ∈ teardown_events ns.
Proof.
  unfold teardown_events. rewrite !elem_of_app, !elem_of_cons. tauto.
Qed.

(** C1, as the code has it: when the connection of a tracked address is
    closed, or is declared unhealthy while its socket reports that address
    as peer, the health checked connection and then the socket are
    destroyed and both slots of the entry reset; the state of every other
    tracked address is unaffected.  No reconnection is requested from the
    connector: the select server is asked to terminate instead. *)
Theorem teardown_terminates_without_reconnect
    (m : SimpleE133Monitor) (ip : IPV4Address) (p : loc)
    (ns : NodeTCPState) :
  wf m →
  m_ip_map m !! AsInt ip = Some p →
  heap m !! p = Some ns →
  (∃ m', SocketClosed ip m = Some m' ∧ torn_down_only m ip ns m' ∧
         events_since m m' =
           Log OLA_LOG_INFO "connection was closed" :: teardown_events ns) ∧
  (∀ s, socket ns = Some s → GetPeer s = ip →
     ∃ m', SocketUnhealthy p m = Some m' ∧ torn_down_only m ip ns m').
Proof.
  intros Hwf Hk Hp. split.
  - eexists. split; [by apply SocketClosed_tracked|].
    split; [|by apply events_since_app].
    unfold torn_down_only. repeat split.
    + unfold node_of. simpl. rewrite Hk. simpl. by rewrite lookup_insert_eq.
    + intros ip' Hne. by eapply node_of_store_other.
    + intros a port policy. erewrite events_since_app; [|done].
      rewrite elem_of_cons. intros [?|?]; [done|].
      by eapply teardown_events_no_AddEndpoint.
    + erewrite events_since_app; [|done].
      apply elem_of_cons. right. apply teardown_events_Terminate.
  - intros s Hs <-. eexists.
    split; [by eapply SocketUnhealthy_same_entry|].
    unfold torn_down_only. repeat split.
    + unfold node_of. simpl. rewrite Hk. simpl. by rewrite lookup_insert_eq.
    + intros ip' Hne. by eapply node_of_store_other.
    + intros a port policy. erewrite events_since_app; [|done].
      destruct (health_checked_connection ns); simpl; event_elem.
    + erewrite events_since_app; [|done].
      rewrite elem_of_cons, elem_of_app, !elem_of_cons. tauto.
Qed.

Lemma teardown_terminates_without_reconnect_witness :
  wf monitor_A_connected ∧
  (∃ m', SocketClosed ipA monitor_A_connected = Some m' ∧
         Terminate ∈ events_since monitor_A_connected m') ∧
  (∃ m', SocketUnhealthy 1%positive monitor_A_connected = Some m' ∧
         Terminate ∈ events_since monitor_A_connected m').
Proof.
  pose proof (reachable_Inv _ reachable_A_connected) as [Hwf _].
  split; [exact Hwf|].
  destruct (teardown_terminates_without_reconnect monitor_A_connected ipA
              1%positive
              {| socket := Some sockA;
                 health_checked_connection := Some hcA;
                 connection_attempts := 1 |} Hwf eq_refl eq_refl)
    as [(m1 & H1 & Ht1 & _) Hun].
  split.
  - exists m1. split; [exact H1|]. apply Ht1.
  - destruct (Hun sockA eq_refl eq_refl) as (m2 & H2 & Ht2).
    exists m2. split; [exact H2|]. apply Ht2.
Defined.

(** Closing the connection to 10.0.0.1, or declaring it unhealthy, makes
    no call on the connector. *)
Lemma teardown_reconnect_counterexample :
  (∃ m', SocketClosed ipA monitor_A_connected = Some m' ∧
     events_since monitor_A_connected m' =
       [Log OLA_LOG_INFO "connection was closed";
        DeleteHealthCheckedConnection hcA;
        RemoveReadDescriptor (Some sockA); DeleteSocket sockA; Terminate] ∧
     ¬ ∃ port policy,
         AddEndpoint ipA port policy ∈ events_since monitor_A_connected m') ∧
  (∃ m', SocketUnhealthy 1%positive monitor_A_connected = Some m' ∧
     events_since monitor_A_connected m' =
       [Log OLA_LOG_INFO "connection went unhealthy";
        DeleteHealthCheckedConnection hcA;
        Log OLA_LOG_INFO "connection was closed";
        RemoveReadDescriptor (Some sockA); DeleteSocket sockA; Terminate] ∧
     ¬ ∃ port policy,
         AddEndpoint ipA port policy ∈ events_since monitor_A_connected m').
Proof.
  split.
  - eexists. split; [vm_compute; reflexivity|].
    split; [reflexivity|].
    intros (port & policy & H). revert H.
    change (events_since _ _) with
      [Log OLA_LOG_INFO "connection was closed";
       DeleteHealthCheckedConnection hcA;
       RemoveReadDescriptor (Some sockA); DeleteSocket sockA; Terminate].
    event_elem.
  - eexists. split; [vm_compute; reflexivity|].
    split; [reflexivity|].
    intros (port & policy & H). revert H.
    change (events_since _ _) with
      [Log OLA_LOG_INFO "connection went unhealthy";
       DeleteHealthCheckedConnection hcA;
       Log OLA_LOG_INFO "connection was closed";
       RemoveReadDescriptor (Some sockA); DeleteSocket sockA; Terminate].
    event_elem.
Qed.

(** ** C2: heartbeat frames and other frames on endpoint 0 *)

(** C2, as the code has it, on top of the delivery rule of section 4.4: a
    frame for endpoint 0 makes the monitor notify a health checked
    connection of a heartbeat exactly when the frame is recognised as a
    heartbeat, it arrived over TCP, and the entry of its source address has
    that health checked connection attached; a heartbeat frame never
    reaches the endpoint handler, every other frame reaches it and
    notifies nobody; the table and the node states are never changed. *)
Theorem deliver_endpoint0_heartbeat_or_handler
    (f : Frame) (m : SimpleE133Monitor) :
  wf m →
  ∃ m', deliver_endpoint0 f m = Some m' ∧
        m_ip_map m' = m_ip_map m ∧
        heap m' = heap m ∧
        (∀ h, HeartbeatReceived h ∈ events_since m m' ↔
              frame_is_heartbeat f = true ∧
              Transport (frame_transport f) = TCP ∧
              ∃ ns, node_of m (SourceIP (frame_transport f)) = Some ns ∧
                    health_checked_connection ns = Some h) ∧
        (frame_is_heartbeat f = true →
           Log OLA_LOG_INFO "got message from" ∉ events_since m m') ∧
        (frame_is_heartbeat f = false →
           m' = EndpointRequest (frame_transport f) (frame_e133 f)
                  (frame_payload f) m ∧
           events_since m m' = [Log OLA_LOG_INFO "got message from"]).
Proof.
  intros [Hal _]. unfold deliver_endpoint0.
  destruct (frame_is_heartbeat f) eqn:Hhb.
  - assert (Hsome : is_Some (E133DataReceived (frame_transport f) m)).
    { unfold E133DataReceived. destruct (negb _); [eauto|].
      destruct (m_ip_map m !! _) as [p|] eqn:Hk; [|eauto].
      destruct (Hal _ _ Hk) as [ns Hns]. rewrite Hns. simpl.
      destruct (health_checked_connection ns); eauto. }
    destruct Hsome as [m' Hm']. exists m'. split; [done|].
    destruct (E133DataReceived_cases _ _ _ Hm') as (Hmap & Hheap & _ & Hcase).
    split; [done|]. split; [done|].
    destruct Hcase as [(ns & h & Ht & Hn & Hh & Htr)
                      |[(Ht & Htr)|[(Ht & Hk & Htr)|(Ht & (ns & Hn & Hh) & Htr)]]];
      rewrite (events_since_app _ _ _ Htr);
      (split; [|split; [intros _; event_elem | done]]); intros h'.
    + rewrite list_elem_of_singleton. split.
      * intros [= ->]. repeat split; [done|]. by exists ns.
      * intros (_ & _ & ns' & Hn' & Hh'). congruence.
    + split; [event_elem|]. by intros (_ & ? & _).
    + split; [event_elem|]. intros (_ & _ & ns & Hn & _).
      unfold node_of in Hn. by rewrite Hk in Hn.
    + split; [event_elem|]. intros (_ & _ & ns' & Hn' & Hh'). congruence.
  - eexists. split; [done|].
    assert (Hev : events_since m
              (EndpointRequest (frame_transport f) (frame_e133 f)
                 (frame_payload f) m) =
            [Log OLA_LOG_INFO "got message from"])
      by by apply events_since_app.
    split; [done|]. split; [done|]. rewrite Hev. split; [|done].
    intros h. split; [event_elem|]. by intros [? _].
Qed.

Lemma deliver_endpoint0_heartbeat_or_handler_witness :
  wf monitor_A_connected ∧
  ∃ m', deliver_endpoint0 (heartbeat_from ipA TCP) monitor_A_connected
          = Some m' ∧
        HeartbeatReceived hcA ∈ events_since monitor_A_connected m'.
Proof.
  pose proof (reachable_Inv _ reachable_A_connected) as [Hwf _].
  split; [exact Hwf|].
  destruct (deliver_endpoint0_heartbeat_or_handler (heartbeat_from ipA TCP)
              monitor_A_connected Hwf) as (m' & Hrun & _ & _ & Hiff & _).
  exists m'. split; [exact Hrun|]. apply Hiff.
  split; [reflexivity|]. split; [reflexivity|].
  eexists. split; reflexivity.
Defined.

(** A frame recognised as a heartbeat whose transport header says UDP,
    from 10.0.0.1 whose health checked connection is attached: nothing is
    notified.  The same for a heartbeat over TCP from 10.0.0.2, which is
    tracked but has no health checked connection. *)
Lemma deliver_endpoint0_heartbeat_counterexample :
  (∃ m', deliver_endpoint0 (heartbeat_from ipA UDP) monitor_A_connected
           = Some m' ∧
     node_of monitor_A_connected ipA =
       Some {| socket := Some sockA; health_checked_connection := Some hcA;
               connection_attempts := 1 |} ∧
     events_since monitor_A_connected m' = [] ∧
     ¬ (HeartbeatReceived hcA ∈ events_since monitor_A_connected m' ↔
        frame_is_heartbeat (heartbeat_from ipA UDP) = true)) ∧
  (∃ m', deliver_endpoint0 (heartbeat_from ipB TCP) monitor_A_connected
           = Some m' ∧
     events_since monitor_A_connected m' = [] ∧
     ¬ ((∃ h, HeartbeatReceived h ∈ events_since monitor_A_connected m') ↔
        frame_is_heartbeat (heartbeat_from ipB TCP) = true)).
Proof.
  split.
  - eexists. split; [vm_compute; reflexivity|].
    split; [vm_compute; reflexivity|]. split; [reflexivity|].
    change (events_since _ _) with (@nil Event).
    intros [_ H]. specialize (H eq_refl). revert H. event_elem.
  - eexists. split; [vm_compute; reflexivity|]. split; [reflexivity|].
    change (events_since _ _) with (@nil Event).
    intros [_ H]. destruct (H eq_refl) as [h Hh]. revert Hh. event_elem.
Qed.

(** ** C3: the invariant of the table *)

(** C3, evaluated where it fails: a second connection is delivered for
    10.0.0.1 while its entry still holds the socket and the health checked
    connection of the first.  When Setup() succeeds, the entry of 10.0.0.1
    has two live sockets, both registered with the select server, and two
    live health checked connections; the code only writes the warning that
    calls this a bug.  When Setup() fails, the entry keeps the first health
    checked connection and has no socket, while the first socket is still
    live; the unhealthy callback of that health checked connection then
    dereferences the null socket. *)
Theorem registry_invariant_broken_by_second_connection :
  (∃ m,
     run [OpAddIP ipA; OpOnTCPConnect ipA 5569 (Some sockA) true;
          OpOnTCPConnect ipA 5569 (Some sockA') true] monitor_new = Some m ∧
     m_ip_map m !! AsInt ipA = Some 1%positive ∧
     live_sockets m 1%positive = [sockA; sockA'] ∧
     live_health_checks m 1%positive = [hcA; hcA'] ∧
     ¬ (length (live_sockets m 1%positive) ≤ 1)%nat ∧
     ¬ (length (live_health_checks m 1%positive) ≤ 1)%nat ∧
     AddReadDescriptor sockA ∈ trace m ∧
     AddReadDescriptor sockA' ∈ trace m ∧
     (RemoveReadDescriptor (Some sockA) ∉ trace m) ∧
     (Close sockA ∉ trace m) ∧
     Log OLA_LOG_WARN
       "pre-existing health_checked_connection, this is a bug and we'll leak memory!"
       ∈ trace m) ∧
  (∃ m ns,
     run [OpAddIP ipA; OpOnTCPConnect ipA 5569 (Some sockA) true;
          OpOnTCPConnect ipA 5569 (Some sockA') false] monitor_new = Some m ∧
     node_of m ipA = Some ns ∧
     health_checked_connection ns = Some hcA ∧
     socket ns = None ∧
     ¬ (health_checked_connection ns ≠ None → socket ns ≠ None) ∧
     live_sockets m 1%positive = [sockA] ∧
     live_health_checks m 1%positive = [hcA] ∧
     step (OpSocketUnhealthy (hc_node hcA)) m = None).
Proof.
  split.
  - eexists. split; [vm_compute; reflexivity|].
    split; [vm_compute; reflexivity|].
    split; [vm_compute; reflexivity|].
    split; [vm_compute; reflexivity|].
    split; [vm_compute; lia|]. split; [vm_compute; lia|].
    simpl. unfold hcA, sockA, sockA', ipA.
    split; [event_elem|]. split; [event_elem|]. split; [event_elem|].
    split; event_elem.
  - eexists _, _. split; [vm_compute; reflexivity|].
    split; [vm_compute; reflexivity|].
    split; [reflexivity|]. split; [reflexivity|].
    split; [simpl; intros H; by apply H|].
    split; [vm_compute; reflexivity|].
    split; vm_compute; reflexivity.
Qed.

(** ** C4: adding the same address again *)

(** C4: however often AddIP is called with one address, every call after
    the first changes nothing (no entry is created, nothing is asked of
    the connector); for an address not tracked before, the calls together
    add exactly one entry and one node state and request one connection;
    from a new monitor the table then has exactly one entry. *)
Theorem AddIP_same_address_once (ip : IPV4Address) (n : nat) :
  (∀ m, Nat.iter n (AddIP ip) (AddIP ip m) = AddIP ip m) ∧
  (∀ m, m_ip_map m !! AsInt ip = None →
     let m' := Nat.iter n (AddIP ip) (AddIP ip m) in
     size (m_ip_map m') = S (size (m_ip_map m)) ∧
     size (heap m') = S (size (heap m)) ∧
     node_of m' ip =
       Some {| socket := None; health_checked_connection := None;
               connection_attempts := 1 |} ∧
     events_since m m' =
       [Log OLA_LOG_INFO "Opening TCP connection to";
        AddEndpoint ip E133_PORT m_backoff_policy_ref]) ∧
  (let m' := Nat.iter n (AddIP ip) (AddIP ip monitor_new) in
   size (m_ip_map m') = 1%nat ∧ size (heap m') = 1%nat ∧
   dom (m_ip_map m') = {[ AsInt ip ]}).
Proof.
  split; [intros m; apply AddIP_repeated|].
  assert (Hone : ∀ m, m_ip_map m !! AsInt ip = None →
     let m' := AddIP ip m in
     size (m_ip_map m') = S (size (m_ip_map m)) ∧
     size (heap m') = S (size (heap m)) ∧
     node_of m' ip =
       Some {| socket := None; health_checked_connection := None;
               connection_attempts := 1 |} ∧
     events_since m m' =
       [Log OLA_LOG_INFO "Opening TCP connection to";
        AddEndpoint ip E133_PORT m_backoff_policy_ref]).
  { intros m Hk. simpl. rewrite (AddIP_untracked _ _ Hk).
    repeat split; simpl.
    - by apply map_size_insert_None.
    - apply map_size_insert_None, not_elem_of_dom, is_fresh.
    - unfold node_of. simpl. rewrite lookup_insert_eq. simpl.
      by rewrite lookup_insert_eq.
    - by apply events_since_app. }
  split.
  - intros m Hk. simpl. rewrite AddIP_repeated. by apply Hone.
  - simpl. rewrite AddIP_repeated.
    destruct (Hone monitor_new) as (Hs1 & Hs2 & _); [done|].
    repeat split; [done..|].
    rewrite AddIP_untracked by done. simpl.
    by rewrite insert_empty, dom_singleton_L.
Qed.

Lemma AddIP_same_address_once_witness :
  m_ip_map monitor_new !! AsInt ipA = None ∧
  Nat.iter 2 (AddIP ipA) (AddIP ipA monitor_new) = AddIP ipA monitor_new ∧
  size (m_ip_map (Nat.iter 2 (AddIP ipA) (AddIP ipA monitor_new))) = 1%nat.
Proof.
  destruct (AddIP_same_address_once ipA 2) as (Hnoop & Hfresh & _).
  split; [reflexivity|]. split; [apply Hnoop|].
  destruct (Hfresh monitor_new eq_refl) as (Hsize & _). exact Hsize.
Defined.

(** ** C5: a connection for an address that is not tracked *)

(** C5: when OnTCPConnect is called with an address that has no entry,
    the delivered socket is closed and deleted at once, the table and the
    node states stay as they are, and the call returns normally: nothing
    but the fatal log line and the two calls on the socket happens. *)
Theorem OnTCPConnect_untracked_discards_socket
    (ip : IPV4Address) (port : N) (s : TcpSocket) (setup_ok : bool)
    (m : SimpleE133Monitor) :
  m_ip_map m !! AsInt ip = None →
  ∃ m', OnTCPConnect ip port (Some s) setup_ok m = Some m' ∧
        m_ip_map m' = m_ip_map m ∧
        heap m' = heap m ∧
        events_since m m' =
          [Log OLA_LOG_FATAL "Unable to locate socket for";
           Close s; DeleteSocket s].
Proof.
  intros Hk. unfold OnTCPConnect. rewrite Hk. eexists. split; [done|].
  repeat split. apply events_since_app. state_simpl.
  by rewrite <- !app_assoc.
Qed.

Lemma OnTCPConnect_untracked_discards_socket_witness :
  m_ip_map monitor_new !! AsInt ipA = None ∧
  ∃ m', OnTCPConnect ipA 5569 (Some sockA) true monitor_new = Some m' ∧
        m_ip_map m' = m_ip_map monitor_new ∧
        heap m' = heap monitor_new ∧
        events_since monitor_new m' =
          [Log OLA_LOG_FATAL "Unable to locate socket for";
           Close sockA; DeleteSocket sockA].
Proof.
  split; [reflexivity|].
  apply (OnTCPConnect_untracked_discards_socket ipA 5569 sockA true
           monitor_new).
  reflexivity.
Defined.

(** ** C6: Setup() fails *)

(** C6, evaluated where it fails: a second connection is delivered for
    10.0.0.1 while its entry still holds the socket and the health checked
    connection of the first, and Setup() fails.  The new health checked
    connection and the new socket are torn down and the socket slot is
    reset, but the health check slot still holds the first health checked
    connection; the first socket, which the slot no longer points to, is
    neither closed nor deleted nor removed from the select server.  The
    call itself returns, and the unhealthy callback of the health checked
    connection that was left attached dereferences the null socket. *)
Theorem OnTCPConnect_setup_failure_leaves_health_check :
  run both_added_A_connected monitor_new = Some monitor_A_connected ∧
  ∃ m',
    OnTCPConnect ipA 5569 (Some sockA') false monitor_A_connected = Some m' ∧
    node_of monitor_A_connected ipA =
      Some {| socket := Some sockA; health_checked_connection := Some hcA;
              connection_attempts := 1 |} ∧
    node_of m' ipA =
      Some {| socket := None; health_checked_connection := Some hcA;
              connection_attempts := 1 |} ∧
    events_since monitor_A_connected m' =
      [NewHealthCheckedConnection hcA'; Setup hcA' false;
       Log OLA_LOG_WARN "Failed to setup heartbeat controller for";
       DeleteHealthCheckedConnection hcA'; Close sockA';
       DeleteSocket sockA'] ∧
    (DeleteHealthCheckedConnection hcA ∉ trace m') ∧
    (DeleteSocket sockA ∉ trace m') ∧
    (Close sockA ∉ trace m') ∧
    (RemoveReadDescriptor (Some sockA) ∉ trace m') ∧
    SocketUnhealthy (hc_node hcA) m' = None.
Proof.
  split; [vm_compute; reflexivity|].
  eexists. split; [vm_compute; reflexivity|].
  split; [vm_compute; reflexivity|].
  split; [vm_compute; reflexivity|].
  split; [reflexivity|].
  split; [|split; [|split; [|split]]];
    [simpl; unfold hcA, hcA', sockA, sockA', ipA; event_elem..|].
  vm_compute. reflexivity.
Qed.

(** ** C7: a health checked connection is already attached *)

(** C7, evaluated where it fails: a second connection is delivered for
    10.0.0.1 while its entry still holds the health checked connection of
    the first, and Setup() succeeds.  The only trace of the violation is a
    log line at warning level; the slots are overwritten, and neither the
    old health checked connection nor the old socket is closed or
    deleted. *)
Theorem OnTCPConnect_duplicate_health_check_leaks :
  ∃ m',
    OnTCPConnect ipA 5569 (Some sockA') true monitor_A_connected = Some m' ∧
    node_of monitor_A_connected ipA =
      Some {| socket := Some sockA; health_checked_connection := Some hcA;
              connection_attempts := 1 |} ∧
    node_of m' ipA =
      Some {| socket := Some sockA';
              health_checked_connection :=
                Some (new_hc monitor_A_connected sockA' 1%positive);
              connection_attempts := 1 |} ∧
    events_since monitor_A_connected m' =
      [NewHealthCheckedConnection
         (new_hc monitor_A_connected sockA' 1%positive);
       Setup (new_hc monitor_A_connected sockA' 1%positive) true;
       Log OLA_LOG_WARN
         "pre-existing health_checked_connection, this is a bug and we'll leak memory!";
       SetOnClose sockA' ipA; SetOnData sockA'; AddReadDescriptor sockA'] ∧
    (DeleteHealthCheckedConnection hcA ∉ trace m') ∧
    (DeleteSocket sockA ∉ trace m') ∧
    (Close sockA ∉ trace m') ∧
    (∀ text, Log OLA_LOG_FATAL text ∉ trace m').
Proof.
  eexists. split; [vm_compute; reflexivity|].
  split; [vm_compute; reflexivity|].
  split; [vm_compute; reflexivity|].
  split; [reflexivity|].
  simpl. unfold hcA, sockA, sockA', ipA.
  split; [event_elem|]. split; [event_elem|]. split; [event_elem|].
  intros text. event_elem.
Qed.

(** ** C8: the retry delays *)

Module BackoffFacts.
Import Backoff.
Local Open Scope Z_scope.

Lemma grow_pos law initial n : 0 < initial → 1 ≤ n → 0 < grow law initial n.
Proof.
  intros Hi Hn. destruct law; simpl.
  - nia.
  - apply Z.mul_pos_pos; [done|]. apply Z.pow_pos_nonneg; lia.
Qed.

Lemma grow_mono law initial n k :
  0 < initial → 1 ≤ n → n ≤ k → grow law initial n ≤ grow law initial k.
Proof.
  intros Hi Hn Hk. destruct law; simpl.
  - nia.
  - apply Z.mul_le_mono_nonneg_l; [lia|].
    apply Z.pow_le_mono_r; lia.
Qed.

Lemma NextDelay_bounds law initial maximum n k :
  0 < initial → 0 < maximum → 1 ≤ n → n ≤ k →
  0 < NextDelay law initial maximum n ∧
  NextDelay law initial maximum n ≤ NextDelay law initial maximum k ∧
  NextDelay law initial maximum k ≤ maximum.
Proof.
  intros Hi Hm Hn Hk. unfold NextDelay.
  pose proof (grow_pos law initial n Hi Hn).
  pose proof (grow_mono law initial n k Hi Hn Hk).
  lia.
Qed.
End BackoffFacts.

(** C8: with the initial delay of 5 seconds and the maximum of 60 seconds
    that the monitor configures, the delay for every attempt count from 1
    on is strictly positive, does not decrease when the attempt count
    grows, and never exceeds the maximum; the first delay is the initial
    one. *)
Theorem m_backoff_policy_bounds
    (law : Backoff.GrowthLaw) (attemptCount1 attemptCount2 : Z) :
  (1 ≤ attemptCount1)%Z → (attemptCount1 ≤ attemptCount2)%Z →
  (0 < Backoff.m_backoff_policy law attemptCount1)%Z ∧
  (Backoff.m_backoff_policy law attemptCount1
     ≤ Backoff.m_backoff_policy law attemptCount2)%Z ∧
  (Backoff.m_backoff_policy law attemptCount2
     ≤ Backoff.MAX_TCP_RETRY_DELAY)%Z ∧
  Backoff.m_backoff_policy law 1 = Backoff.INITIAL_TCP_RETRY_DELAY ∧
  Backoff.MAX_TCP_RETRY_DELAY = 60000000%Z.
Proof.
  intros H1 H2. unfold Backoff.m_backoff_policy.
  destruct (BackoffFacts.NextDelay_bounds law
              Backoff.INITIAL_TCP_RETRY_DELAY Backoff.MAX_TCP_RETRY_DELAY
              attemptCount1 attemptCount2) as (Hpos & Hmono & Hmax);
    [reflexivity | reflexivity | done | done |].
  split; [exact Hpos|]. split; [exact Hmono|]. split; [exact Hmax|].
  split; [by destruct law | reflexivity].
Qed.

Lemma m_backoff_policy_bounds_witness :
  (1 ≤ 2)%Z ∧ (2 ≤ 13)%Z ∧
  (0 < Backoff.m_backoff_policy Backoff.Linear 2)%Z ∧
  (Backoff.m_backoff_policy Backoff.Linear 2
     ≤ Backoff.m_backoff_policy Backoff.Linear 13)%Z ∧
  (Backoff.m_backoff_policy Backoff.Linear 13
     ≤ Backoff.MAX_TCP_RETRY_DELAY)%Z.
Proof.
  assert (H1 : (1 ≤ 2)%Z) by lia. assert (H2 : (2 ≤ 13)%Z) by lia.
  split; [exact H1|]. split; [exact H2|].
  destruct (m_backoff_policy_bounds Backoff.Linear 2 13 H1 H2)
    as (Hpos & Hmono & Hmax & _).
  split; [exact Hpos|]. split; [exact Hmono | exact Hmax].
Defined.

(** ** C9: start-up with a manual target list *)

Lemma StringSplit_nonempty input : StringSplit input ≠ [].
Proof.
  destruct input as [|c rest]; simpl; [done|].
  destruct (Ascii.eqb c ","%char); [done|].
  by destruct (StringSplit rest).
Qed.

Lemma parse_targets_Some F tokens acc targets :
  parse_targets F tokens acc = Some targets →
  ∃ l, targets = acc ++ l ∧ Forall2 (λ tok ip, F tok = Some ip) tokens l.
Proof.
  revert acc. induction tokens as [|tok tokens IH]; intros acc; simpl.
  - intros [= <-]. exists []. by rewrite app_nil_r.
  - destruct (F tok) as [ip|] eqn:Htok; [|done]. intros Hrest.
    destruct (IH _ Hrest) as (l & -> & Hl). exists (ip :: l).
    split; [by rewrite <- app_assoc|]. by constructor.
Qed.

Lemma parse_targets_None F tokens acc :
  parse_targets F tokens acc = None → ∃ tok, tok ∈ tokens ∧ F tok = None.
Proof.
  revert acc. induction tokens as [|tok tokens IH]; intros acc; simpl;
    [done|].
  destruct (F tok) as [ip|] eqn:Htok.
  - intros Hrest. destruct (IH _ Hrest) as (tok' & Hin & Hnone).
    exists tok'. split; [by right | done].
  - intros _. exists tok. split; [by left | done].
Qed.

Lemma targets_added_AddIP ip m : targets_added m → targets_added (AddIP ip m).
Proof.
  intros (HI & Hreq & Hdisc). split; [by apply Inv_AddIP|].
  destruct (m_ip_map m !! AsInt ip) as [p|] eqn:Hk.
  - rewrite AddIP_tracked by (rewrite Hk; eauto). by split.
  - rewrite AddIP_untracked by done. simpl. split.
    + intros ip'. destruct (decide (AsInt ip = AsInt ip')) as [Heq|Hne].
      * intros _. destruct ip, ip'; simpl in Heq; subst. event_elem.
      * rewrite lookup_insert_ne by done. intros Hin.
        apply elem_of_app. left. by apply Hreq.
    + revert Hdisc. event_elem.
Qed.

Lemma foldl_AddIP targets m :
  targets_added m →
  let m' := foldl (λ mon ip, AddIP ip mon) m targets in
  targets_added m' ∧
  ∀ ip, is_Some (m_ip_map m' !! AsInt ip) ↔
        ip ∈ targets ∨ is_Some (m_ip_map m !! AsInt ip).
Proof.
  revert m. induction targets as [|t targets IH]; intros m Hm; simpl.
  - split; [done|]. intros ip. rewrite elem_of_nil. tauto.
  - destruct (IH (AddIP t m) (targets_added_AddIP _ _ Hm)) as [Hadded Hiff].
    split; [done|]. intros ip. rewrite Hiff, AddIP_tracked_iff, elem_of_cons.
    split.
    + intros [?|[Heq|?]]; [tauto| |tauto].
      left. left. destruct ip, t; simpl in Heq; by subst.
    + intros [[->|?]|?]; tauto.
Qed.

(** C9: with a manual target list, either some element is rejected by the
    address parser and the process prints the usage text and exits before
    anything is asked of the connector or of discovery; or every element
    parses, discovery is never started, and, once start-up is through,
    exactly the parsed addresses are tracked, a connection having been
    requested for each.  Start-up itself can still end the process, with
    EX_OSFILE or EX_UNAVAILABLE and nothing connected. *)
Theorem main_manual_targets
    (FromString : string → option IPV4Address)
    (pid_helper_Init slp_thread_Init : bool) (opts : options) :
  help opts = false →
  target_addresses opts ≠ EmptyString →
  let tokens := StringSplit (target_addresses opts) in
  ((∃ tok, tok ∈ tokens ∧ FromString tok = None) ∧
   main FromString pid_helper_Init slp_thread_Init opts =
     Exited EXIT_SUCCESS [Log OLA_LOG_WARN "Invalid address"; DisplayHelp])
  ∨
  (∃ targets,
     Forall2 (λ tok ip, FromString tok = Some ip) tokens targets ∧
     match main FromString pid_helper_Init slp_thread_Init opts with
     | Exited code called =>
         (pid_helper_Init = false ∨ slp_thread_Init = false) ∧
         code ≠ EXIT_SUCCESS ∧
         (Discover ∉ called) ∧
         (∀ ip port policy, AddEndpoint ip port policy ∉ called)
     | Started m =>
         pid_helper_Init = true ∧ slp_thread_Init = true ∧
         m = Run
               (foldl (λ mon ip, AddIP ip mon) (emit SlpStart monitor_new)
                  targets) ∧
         (Discover ∉ trace m) ∧
         (∀ ip, ip ∈ targets →
                is_Some (node_of m ip) ∧
                AddEndpoint ip E133_PORT m_backoff_policy_ref ∈ trace m) ∧
         (∀ ip, is_Some (m_ip_map m !! AsInt ip) → ip ∈ targets)
     end).
Proof.
  intros Hhelp Hlist tokens. unfold main. rewrite Hhelp.
  rewrite bool_decide_eq_false_2 by done. fold tokens.
  destruct (parse_targets FromString tokens []) as [targets|] eqn:Hparse.
  - right. apply parse_targets_Some in Hparse as (l & -> & Hall).
    exists l. simpl. split; [done|].
    destruct pid_helper_Init; simpl.
    + destruct slp_thread_Init; simpl.
      * destruct l as [|t l].
        { apply Forall2_length in Hall.
          pose proof (StringSplit_nonempty (target_addresses opts)).
          fold tokens in H. by destruct tokens. }
        assert (Hstart : targets_added (emit SlpStart monitor_new)).
        { split; [apply Inv_new|]. split.
          - intros ip. simpl. rewrite lookup_empty. by intros [? ?].
          - simpl. event_elem. }
        destruct (foldl_AddIP (t :: l) _ Hstart)
          as [(HI & Hreq & Hdisc) Hiff].
        split; [done|]. split; [done|]. split; [done|].
        split; [simpl in *; revert Hdisc; event_elem|]. split.
        -- intros ip Hin.
           assert (Htr : is_Some (m_ip_map (foldl (λ mon ip, AddIP ip mon)
                           (emit SlpStart monitor_new) (t :: l)) !! AsInt ip))
             by (apply Hiff; by left).
           split.
           ++ apply (tracked_node_of _ ip (proj1 HI)) in Htr. exact Htr.
           ++ simpl. apply elem_of_app. left. by apply Hreq.
        -- intros ip Htr. apply Hiff in Htr as [?|Hnew]; [done|].
           simpl in Hnew. rewrite lookup_empty in Hnew. by destruct Hnew.
      * split; [by right|]. split; [done|]. split; [event_elem|].
        intros ip port policy. event_elem.
    + split; [by left|]. split; [done|]. split; [event_elem|].
      intros ip port policy. event_elem.
  - left. split; [|done]. by eapply parse_targets_None.
Qed.

Lemma main_manual_targets_witness :
  help options_two_targets = false ∧
  target_addresses options_two_targets ≠ EmptyString ∧
  ∃ m, main FromString_example true true options_two_targets = Started m ∧
       (Discover ∉ trace m) ∧
       is_Some (node_of m ipA) ∧ is_Some (node_of m ipB).
Proof.
  assert (Hhelp : help options_two_targets = false) by reflexivity.
  assert (Hlist : target_addresses options_two_targets ≠ EmptyString)
    by discriminate.
  split; [exact Hhelp|]. split; [exact Hlist|].
  destruct (main_manual_targets FromString_example true true
              options_two_targets Hhelp Hlist)
    as [[_ Hexit]|(targets & Hall & Hmain)].
  - vm_compute in Hexit. discriminate Hexit.
  - destruct (main FromString_example true true options_two_targets)
      as [code called|m].
    + destruct Hmain as ([Hf|Hf] & _); discriminate Hf.
    + destruct Hmain as (_ & _ & _ & Hdisc & Htracked & _).
      exists m. split; [reflexivity|]. split; [exact Hdisc|].
      vm_compute in Hall.
      inversion Hall as [|tok1 ip1 toks1 ips1 H1 Hall1]; subst.
      inversion Hall1 as [|tok2 ip2 toks2 ips2 H2 Hall2]; subst.
      injection H1 as <-. injection H2 as <-.
      split.
      * apply Htracked. by left.
      * apply Htracked. right. by left.
Defined.

(** ** C10: data that must not count as a heartbeat *)

(** C10: when the transport is not TCP, or the source address has no
    entry, or its entry has no health checked connection, E133DataReceived
    returns without notifying any health checked connection of a heartbeat
    and leaves the table and every node state unchanged. *)
Theorem E133DataReceived_guards
    (header : TransportHeader) (m : SimpleE133Monitor) :
  Transport header ≠ TCP ∨
  m_ip_map m !! AsInt (SourceIP header) = None ∨
  (∃ ns, node_of m (SourceIP header) = Some ns ∧
         health_checked_connection ns = None) →
  ∃ m', E133DataReceived header m = Some m' ∧
        m_ip_map m' = m_ip_map m ∧
        heap m' = heap m ∧
        (∀ ip, node_of m' ip = node_of m ip) ∧
        (∀ h, HeartbeatReceived h ∉ events_since m m').
Proof.
  intros Hguard.
  assert (Hsome : is_Some (E133DataReceived header m)).
  { unfold E133DataReceived, node_of in *. case_bool_decide as Ht; simpl; [|eauto].
    destruct (m_ip_map m !! AsInt (SourceIP header)) as [p|]; simpl in *;
      [|eauto].
    destruct Hguard as [?|[?|(ns & Hn & Hh)]]; [done..|].
    rewrite Hn. simpl. rewrite Hh. eauto. }
  destruct Hsome as [m' Hm']. exists m'. split; [done|].
  destruct (E133DataReceived_cases _ _ _ Hm') as (Hmap & Hheap & _ & Hcase).
  split; [done|]. split; [done|]. split.
  { intros ip. unfold node_of. by rewrite Hmap, Hheap. }
  destruct Hcase as [(ns & h & Ht & Hn & Hh & _)
                    |[(_ & Htr)|[(_ & _ & Htr)|(_ & _ & Htr)]]];
    [|rewrite (events_since_app _ _ _ Htr); intros h; event_elem..].
  destruct Hguard as [?|[Hk|(ns' & Hn' & Hh')]]; [done|..].
  - unfold node_of in Hn. by rewrite Hk in Hn.
  - congruence.
Qed.

Lemma E133DataReceived_guards_witness :
  (Transport (mkTransportHeader ipA UDP) ≠ TCP ∨
   m_ip_map monitor_A_connected !! AsInt ipA = None ∨
   (∃ ns, node_of monitor_A_connected ipA = Some ns ∧
          health_checked_connection ns = None)) ∧
  ∃ m', E133DataReceived (mkTransportHeader ipA UDP) monitor_A_connected
          = Some m' ∧
        heap m' = heap monitor_A_connected.
Proof.
  assert (Hguard :
    Transport (mkTransportHeader ipA UDP) ≠ TCP ∨
    m_ip_map monitor_A_connected !! AsInt (SourceIP (mkTransportHeader ipA UDP))
      = None ∨
    (∃ ns, node_of monitor_A_connected (SourceIP (mkTransportHeader ipA UDP))
             = Some ns ∧
           health_checked_connection ns = None)).
  { left. simpl. discriminate. }
  split; [exact Hguard|].
  destruct (E133DataReceived_guards (mkTransportHeader ipA UDP)
              monitor_A_connected Hguard) as (m' & Hrun & _ & Hheap & _).
  exists m'. split; [exact Hrun | exact Hheap].
Defined.

(** * Further properties *)

(** ** The paths through the callbacks *)

Lemma emit_with_events e m : emit e m = with_events m [e].
Proof. reflexivity. Qed.

Lemma with_events_with_events m evs1 evs2 :
  with_events (with_events m evs1) evs2 = with_events m (evs1 ++ evs2).
Proof. unfold with_events. simpl. by rewrite <- app_assoc. Qed.

Lemma SocketClosed_spec ip m m' :
  SocketClosed ip m = Some m' → step_spec (OpSocketClosed ip) m m'.
Proof.
  destruct (m_ip_map m !! AsInt ip) as [p|] eqn:Hk.
  - destruct (heap m !! p) as [ns|] eqn:Hp.
    + rewrite (SocketClosed_tracked _ _ _ _ Hk Hp). intros [= <-].
      by apply spec_closed.
    + unfold SocketClosed. simpl. rewrite Hk. simpl. by rewrite Hp.
  - rewrite (SocketClosed_untracked _ _ Hk). intros [= <-].
    rewrite !emit_with_events, with_events_with_events.
    by apply spec_closed_untracked.
Qed.

Lemma step_spec_complete op m m' : step op m = Some m' → step_spec op m m'.
Proof.
  destruct op as [ip|ip port sock ok|p|ip|header]; simpl.
  - intros [= <-]. destruct (m_ip_map m !! AsInt ip) as [q|] eqn:Hk.
    + rewrite AddIP_tracked by (rewrite Hk; eauto).
      apply spec_AddIP_tracked. rewrite Hk. eauto.
    + rewrite AddIP_untracked by done. by apply spec_AddIP_new.
  - destruct (m_ip_map m !! AsInt ip) as [p|] eqn:Hk.
    + destruct (heap m !! p) as [ns|] eqn:Hp.
      * destruct sock as [s|].
        -- destruct ok.
           ++ rewrite (OnTCPConnect_setup_ok _ _ _ _ _ _ Hk Hp).
              intros [= <-]. by apply spec_connect_ok.
           ++ rewrite (OnTCPConnect_setup_failed _ _ _ _ _ _ Hk Hp).
              intros [= <-]. by apply spec_connect_failed.
        -- unfold OnTCPConnect. rewrite Hk. simpl. by rewrite Hp.
      * unfold OnTCPConnect. rewrite Hk. simpl. by rewrite Hp.
    + unfold OnTCPConnect. rewrite Hk.
      destruct sock as [s|]; intros [= <-].
      * rewrite !emit_with_events, !with_events_with_events.
        by apply (spec_connect_untracked ip port (Some s)).
      * rewrite emit_with_events.
        by apply (spec_connect_untracked ip port None).
  - unfold SocketUnhealthy. simpl.
    destruct (heap m !! p) as [ns|] eqn:Hp; simpl; [|done].
    destruct (socket ns) as [s|] eqn:Hs; simpl; [|done].
    intros Hclosed. apply SocketClosed_spec in Hclosed.
    eapply spec_unhealthy; [done..|].
    destruct (health_checked_connection ns);
      unfold store, delete_hc, emit, updated, hc_deletion in *;
      simpl in *; rewrite <- ?app_assoc in Hclosed; exact Hclosed.
  - apply SocketClosed_spec.
  - unfold E133DataReceived. case_bool_decide as Ht; simpl.
    + destruct (m_ip_map m !! AsInt (SourceIP header)) as [p|] eqn:Hk.
      * destruct (heap m !! p) as [ns|] eqn:Hp; simpl; [|done].
        destruct (health_checked_connection ns) as [h|] eqn:Hh;
          intros [= <-].
        -- rewrite emit_with_events. by eapply spec_data_heartbeat.
        -- by eapply spec_data_no_health_check.
      * intros [= <-]. rewrite emit_with_events.
        by apply spec_data_untracked.
    + intros [= <-]. by apply spec_data_not_tcp.
Qed.

Lemma step_spec_sound op m m' : step_spec op m m' → step op m = Some m'.
Proof.
  induction 1 as [ip m Htr|ip m Hk|ip port sock ok m Hk|ip port s m p ns Hk Hp
                 |ip port s m p ns Hk Hp|ip m Hk|ip m p ns Hk Hp
                 |p m ns s m' Hp Hs _ IH|header m Ht|header m Ht Hk
                 |header m p ns Ht Hk Hp Hh|header m p ns h Ht Hk Hp Hh];
    simpl.
  - by rewrite AddIP_tracked.
  - by rewrite AddIP_untracked.
  - unfold OnTCPConnect. rewrite Hk. destruct sock; simpl; f_equal;
      unfold with_events, emit; simpl; by rewrite <- ?app_assoc.
  - by apply OnTCPConnect_setup_failed.
  - rewrite (OnTCPConnect_setup_ok _ _ _ _ _ _ Hk Hp).
    by destruct (health_checked_connection ns).
  - rewrite (SocketClosed_untracked _ _ Hk). f_equal.
    unfold with_events, emit; simpl; by rewrite <- ?app_assoc.
  - by apply SocketClosed_tracked.
  - unfold SocketUnhealthy. simpl. rewrite Hp. simpl. rewrite Hs. simpl.
    simpl in IH. rewrite <- IH. f_equal.
    destruct (health_checked_connection ns);
      unfold store, delete_hc, emit, updated, hc_deletion; simpl;
      by rewrite <- ?app_assoc.
  - unfold E133DataReceived. by rewrite bool_decide_eq_false_2.
  - unfold E133DataReceived. rewrite bool_decide_eq_true_2 by done. simpl.
    by rewrite Hk.
  - unfold E133DataReceived. rewrite bool_decide_eq_true_2 by done. simpl.
    rewrite Hk, Hp. simpl. by rewrite Hh.
  - unfold E133DataReceived. rewrite bool_decide_eq_true_2 by done. simpl.
    rewrite Hk, Hp. simpl. by rewrite Hh.
Qed.

(** An invariant of the paths is an invariant of the runs. *)
Lemma run_invariant (I : SimpleE133Monitor → Prop)
    (pre : Op → SimpleE133Monitor → Prop) :
  (∀ op m m', I m → pre op m → step_spec op m m' → I m') →
  ∀ ops m m', I m → run_satisfies pre ops m → run ops m = Some m' → I m'.
Proof.
  intros Hstep ops. induction ops as [|op ops IH]; intros m m' HI Hpre; simpl.
  - by intros [= <-].
  - destruct Hpre as [Hop Hrest].
    destruct (step op m) as [m1|] eqn:Hm1; simpl; [|done].
    apply IH; [|done]. eapply Hstep; [done..|]. by apply step_spec_complete.
Qed.

Lemma run_satisfies_True ops m : run_satisfies (λ _ _, True) ops m.
Proof.
  revert m. induction ops as [|op ops IH]; intros m; simpl; [done|].
  split; [done|]. by destruct (step op m).
Qed.

(** Reading a heap after one node state was written. *)
Lemma lookup_updated m p ns nh evs q ns' :
  heap (updated m p ns nh evs) !! q = Some ns' →
  (q = p ∧ ns' = ns) ∨ (q ≠ p ∧ heap m !! q = Some ns').
Proof.
  simpl. destruct (decide (p = q)) as [->|Hne].
  - rewrite lookup_insert_eq. intros [= <-]. by left.
  - rewrite lookup_insert_ne by done. intros Hq. right. by split.
Qed.

Lemma lookup_added m ip q ns' :
  heap (added ip m) !! q = Some ns' →
  (heap m !! q = None ∧
   ns' = {| socket := None; health_checked_connection := None;
            connection_attempts := 1 |}) ∨
  heap m !! q = Some ns'.
Proof.
  simpl. destruct (decide (fresh (dom (heap m)) = q)) as [<-|Hne].
  - rewrite lookup_insert_eq. intros [= <-]. left. split; [|done].
    apply not_elem_of_dom, is_fresh.
  - rewrite lookup_insert_ne by done. by right.
Qed.

(** ** The attempt counter *)

Lemma attempts_step op m m' :
  (∀ p ns, heap m !! p = Some ns → connection_attempts ns = 1) →
  step_spec op m m' →
  ∀ p ns, heap m' !! p = Some ns → connection_attempts ns = 1.
Proof.
  intros HI Hstep. induction Hstep; try done.
  - intros q ns' [[_ ->]|Hq]%lookup_added; [done | by eapply HI].
  - intros q ns' [[_ ->]|[_ Hq]]%lookup_updated; simpl; by eapply HI.
  - intros q ns' [[_ ->]|[_ Hq]]%lookup_updated; simpl; by eapply HI.
  - intros q ns' [[_ ->]|[_ Hq]]%lookup_updated; simpl; by eapply HI.
  - apply IHHstep.
    intros q ns' [[_ ->]|[_ Hq]]%lookup_updated; simpl; by eapply HI.
Qed.

(** The attempt counter of an entry is set to 1 when [AddIP] creates the
    entry and no callback changes it afterwards: after any sequence of
    callbacks on a new monitor, every entry has the counter at 1. *)
Theorem connection_attempts_stays_one
    (ops : list Op) (m : SimpleE133Monitor) (ip : IPV4Address)
    (ns : NodeTCPState) :
  run ops monitor_new = Some m →
  node_of m ip = Some ns →
  connection_attempts ns = 1.
Proof.
  intros Hrun Hn.
  assert (HI : ∀ p ns, heap m !! p = Some ns → connection_attempts ns = 1).
  { apply (run_invariant
             (λ m, ∀ p ns, heap m !! p = Some ns → connection_attempts ns = 1)
             (λ _ _, True)) with (ops := ops) (m := monitor_new);
      [|by intros p ns'; simpl; rewrite lookup_empty
       |apply run_satisfies_True | done].
    intros op m1 m2 HI _ Hstep. by eapply attempts_step. }
  unfold node_of in Hn.
  destruct (m_ip_map m !! AsInt ip) as [p|]; simpl in Hn; [|done].
  by eapply HI.
Qed.

Lemma connection_attempts_stays_one_witness :
  run both_added_A_connected monitor_new = Some monitor_A_connected ∧
  node_of monitor_A_connected ipA =
    Some {| socket := Some sockA; health_checked_connection := Some hcA;
            connection_attempts := 1 |} ∧
  connection_attempts
    {| socket := Some sockA; health_checked_connection := Some hcA;
       connection_attempts := 1 |} = 1.
Proof.
  split; [vm_compute; reflexivity|]. split; [vm_compute; reflexivity|].
  apply (connection_attempts_stays_one both_added_A_connected
           monitor_A_connected ipA).
  - vm_compute. reflexivity.
  - vm_compute. reflexivity.
Defined.

(** ** The table only grows *)

Lemma table_step op m m' :
  step_spec op m m' →
  m_ip_map m ⊆ m_ip_map m' ∧
  (∀ p, is_Some (heap m !! p) → is_Some (heap m' !! p)) ∧
  (∀ ip, is_Some (m_ip_map m' !! AsInt ip) ↔
         is_Some (m_ip_map m !! AsInt ip) ∨ op = OpAddIP ip).
Proof.
  assert (Hupd : ∀ m p ns0 ns nh evs q,
            heap m !! p = Some ns0 → is_Some (heap m !! q) →
            is_Some (heap (updated m p ns nh evs) !! q)).
  { intros m0 p ns0 ns nh evs q Hp Hq. simpl.
    destruct (decide (p = q)) as [->|Hne];
      [rewrite lookup_insert_eq; eauto | by rewrite lookup_insert_ne]. }
  induction 1 as [ip m Htr|ip m Hk|ip port sock ok m Hk|ip port s m p ns Hk Hp
                 |ip port s m p ns Hk Hp|ip m Hk|ip m p ns Hk Hp
                 |p m ns s m' Hp Hs _ IH|header m Ht|header m Ht Hk
                 |header m p ns Ht Hk Hp Hh|header m p ns h Ht Hk Hp Hh];
    try (split; [done|]; split; [by eauto|];
         intros ip0; split; [by left | by intros [?|?]]).
  - split; [done|]. split; [done|]. intros ip0. split; [by left|].
    intros [?|[= ->]]; done.
  - split; [by apply insert_subseteq|]. split.
    + intros q Hq. simpl. destruct (decide (fresh (dom (heap m)) = q)) as [<-|?];
        [rewrite lookup_insert_eq; eauto | by rewrite lookup_insert_ne].
    + intros ip0. simpl. destruct (decide (AsInt ip = AsInt ip0)) as [Heq|Hne].
      * rewrite Heq, lookup_insert_eq. split; [|eauto]. intros _. right.
        destruct ip, ip0; simpl in Heq; by subst.
      * rewrite lookup_insert_ne by done. split; [by left|].
        intros [?|[= ->]]; done.
  - destruct IH as (Hsub & Hal & Htr). split; [exact Hsub|]. split.
    + intros q Hq. apply Hal. by eapply Hupd.
    + intros ip0. rewrite Htr. simpl.
      split; (intros [?|?]; [by left | done]).
Qed.

(** No callback ever removes an address from the table or maps it to
    another node state, and only [AddIP] adds one: after any sequence of
    callbacks an address is tracked exactly when it was tracked before or
    was handed to [AddIP] on the way; every entry keeps its pointer and its
    node state stays allocated. *)
Theorem table_only_grows
    (ops : list Op) (m m' : SimpleE133Monitor) :
  run ops m = Some m' →
  m_ip_map m ⊆ m_ip_map m' ∧
  (∀ p, is_Some (heap m !! p) → is_Some (heap m' !! p)) ∧
  (∀ ip, is_Some (m_ip_map m' !! AsInt ip) ↔
         is_Some (m_ip_map m !! AsInt ip) ∨ OpAddIP ip ∈ ops).
Proof.
  revert m. induction ops as [|op ops IH]; intros m; simpl.
  - intros [= <-]. split; [done|]. split; [done|]. intros ip.
    rewrite elem_of_nil. tauto.
  - destruct (step op m) as [m1|] eqn:Hm1; simpl; [|done]. intros Hrun.
    destruct (table_step _ _ _ (step_spec_complete _ _ _ Hm1))
      as (Hsub1 & Hal1 & Htr1).
    destruct (IH _ Hrun) as (Hsub & Hal & Htr).
    split; [by etrans|]. split; [by eauto|].
    intros ip. rewrite Htr, Htr1, elem_of_cons.
    split; [intros [[?|?]|?] | intros [?|[?|?]]]; eauto.
Qed.

Lemma table_only_grows_witness :
  run both_added_A_connected monitor_new = Some monitor_A_connected ∧
  is_Some (m_ip_map monitor_A_connected !! AsInt ipB).
Proof.
  assert (Hrun : run both_added_A_connected monitor_new
                 = Some monitor_A_connected) by (vm_compute; reflexivity).
  split; [exact Hrun|].
  destruct (table_only_grows both_added_A_connected monitor_new
              monitor_A_connected Hrun) as (_ & _ & Htr).
  apply Htr. right. unfold both_added_A_connected.
  apply elem_of_cons. right. apply elem_of_cons. by left.
Defined.

(** ** Counting events *)

Lemma count_event_app e evs1 evs2 :
  count_event e (evs1 ++ evs2) = (count_event e evs1 + count_event e evs2)%nat.
Proof. unfold count_event. by rewrite filter_app, length_app. Qed.

Lemma count_event_cons e x evs :
  count_event e (x :: evs) =
  ((if decide (x = e) then 1 else 0) + count_event e evs)%nat.
Proof.
  unfold count_event. rewrite filter_cons. by destruct (decide (x = e)).
Qed.

Lemma count_event_notin e evs : e ∉ evs → count_event e evs = 0%nat.
Proof.
  induction evs as [|x evs IH]; [done|]. rewrite not_elem_of_cons.
  intros [Hne Hnotin]. rewrite count_event_cons, IH by done.
  by destruct (decide (x = e)).
Qed.

Lemma count_event_NoDup e evs : NoDup evs → (count_event e evs ≤ 1)%nat.
Proof.
  induction 1 as [|x evs Hx _ IH]; [unfold count_event; simpl; lia|].
  rewrite count_event_cons.
  destruct (decide (x = e)) as [->|Hne]; [|simpl; lia].
  rewrite count_event_notin by done. lia.
Qed.

Lemma count_event_extend e tr evs :
  (count_event e tr ≤ 1)%nat → (count_event e evs ≤ 1)%nat →
  (e ∈ evs → e ∉ tr) →
  (count_event e (tr ++ evs) ≤ 1)%nat.
Proof.
  intros Htr Hevs Hnew. rewrite count_event_app.
  destruct (decide (e ∈ evs)) as [Hin|Hnotin].
  - rewrite (count_event_notin e tr) by auto. lia.
  - rewrite (count_event_notin e evs) by done. lia.
Qed.

(** The lists of events that the paths add have no repetition. *)
Ltac events_NoDup :=
  repeat (apply NoDup_cons; split; [event_elem|]); apply NoDup_nil; done.

(** ** No dangling health checked connection *)

Lemma hc_safe_with_events m evs :
  hc_safe m →
  (∀ h, DeleteHealthCheckedConnection h ∉ evs) →
  hc_safe (with_events m evs).
Proof.
  intros (Hheld & Hdel & Hcount) Hevs. split; [|split]; simpl.
  - intros p ns h Hp Hh. destruct (Hheld p ns h Hp Hh) as (? & ? & ?).
    split; [done|]. split; [done|]. rewrite elem_of_app.
    intros [?|?]; [done|]. by eapply Hevs.
  - intros h [?|?]%elem_of_app; [by apply Hdel|]. by destruct (Hevs h).
  - intros h. apply count_event_extend; [done| |by intros ?%Hevs].
    rewrite count_event_notin by apply Hevs. lia.
Qed.

Lemma hc_safe_updated m p ns ns' nh evs :
  hc_safe m →
  heap m !! p = Some ns →
  (next_hc m ≤ nh)%nat →
  (∀ h, health_checked_connection ns' = Some h →
        hc_node h = p ∧ (hc_id h < nh)%nat ∧
        DeleteHealthCheckedConnection h ∉ trace m ++ evs) →
  (∀ h, DeleteHealthCheckedConnection h ∈ evs →
        (hc_id h < nh)%nat ∧
        (health_checked_connection ns = Some h ∨
         (next_hc m ≤ hc_id h)%nat)) →
  (∀ h, (count_event (DeleteHealthCheckedConnection h) evs ≤ 1)%nat) →
  hc_safe (updated m p ns' nh evs).
Proof.
  intros (Hheld & Hdel & Hcount) Hp Hnh Hnew Hevs Hone.
  assert (Hfresh : ∀ h, DeleteHealthCheckedConnection h ∈ evs →
                        DeleteHealthCheckedConnection h ∉ trace m).
  { intros h Hin Htr. destruct (Hevs h Hin) as (_ & [Hh|Hge]).
    - by destruct (Hheld p ns h Hp Hh) as (_ & _ & ?).
    - apply Hdel in Htr. lia. }
  split; [|split].
  - intros q nq h [[-> ->]|[Hne Hq]]%lookup_updated Hh; [by apply Hnew|].
    destruct (Hheld q nq h Hq Hh) as (Hnode & Hid & Hnot).
    split; [done|]. split; [simpl; lia|]. simpl. rewrite elem_of_app.
    intros [?|Hin]; [done|]. destruct (Hevs h Hin) as (_ & [Hh'|Hge]).
    + destruct (Hheld p ns h Hp Hh') as (Hnode' & _). congruence.
    + lia.
  - intros h. simpl. intros [Htr|Hin]%elem_of_app.
    + apply Hdel in Htr. lia.
    + by destruct (Hevs h Hin).
  - intros h. simpl. apply count_event_extend; auto.
Qed.

Lemma hc_safe_step op m m' : hc_safe m → step_spec op m m' → hc_safe m'.
Proof.
  intros HI Hstep.
  induction Hstep as [ip m Htr|ip m Hk|ip port sock ok m Hk
                 |ip port s m p ns Hk Hp
                 |ip port s m p ns Hk Hp|ip m Hk|ip m p ns Hk Hp
                 |p m ns s m' Hp Hs _ IH|header m Ht|header m Ht Hk
                 |header m p ns Ht Hk Hp Hh|header m p ns h Ht Hk Hp Hh];
    try done;
    try (apply hc_safe_with_events; [done|]; intros h0;
         try destruct sock; event_elem).
  - destruct HI as (Hheld & Hdel & Hcount). split; [|split].
    + intros q nq h [[_ ->]|Hq]%lookup_added Hh; [done|].
      destruct (Hheld q nq h Hq Hh) as (? & ? & ?).
      split; [done|]. split; [done|]. simpl. revert H1. event_elem.
    + intros h. simpl. intros [?|?]%elem_of_app; [by apply Hdel|].
      revert H. event_elem.
    + intros h. simpl. apply count_event_extend; [done| |event_elem].
      apply count_event_NoDup. events_NoDup.
  - destruct HI as (Hheld & Hdel & Hcount).
    eapply hc_safe_updated; [by split|done|lia|..]; simpl.
    + intros h Hh. destruct (Hheld p ns h Hp Hh) as (Hnode & Hid & Hnot).
      split; [done|]. split; [lia|]. rewrite elem_of_app.
      intros [?|Hin]; [done|]. revert Hin. rewrite !elem_of_cons, elem_of_nil.
      intros [?|[?|[?|[[= ->]|[?|[?|[]]]]]]]; try done. simpl in Hid. lia.
    + intros h. rewrite !elem_of_cons, elem_of_nil.
      intros [?|[?|[?|[[= ->]|[?|[?|[]]]]]]]; try done. simpl.
      split; [lia | right; lia].
    + intros h. apply count_event_NoDup. events_NoDup.
  - destruct HI as (Hheld & Hdel & Hcount).
    eapply hc_safe_updated; [by split|done|lia|..]; simpl.
    + intros h [= <-]. split; [done|]. split; [simpl; lia|].
      rewrite elem_of_app. intros [Htr|Hin].
      * apply Hdel in Htr. simpl in Htr. lia.
      * revert Hin. destruct (health_checked_connection ns); simpl;
          event_elem.
    + intros h. destruct (health_checked_connection ns); simpl; event_elem.
    + intros h. apply count_event_NoDup.
      destruct (health_checked_connection ns); simpl; events_NoDup.
  - destruct HI as (Hheld & Hdel & Hcount).
    eapply hc_safe_updated; [by split|done|lia|..]; simpl.
    + done.
    + intros h. unfold teardown_events.
      destruct (health_checked_connection ns) as [h0|] eqn:Hh0,
               (socket ns); simpl;
        rewrite ?elem_of_cons, ?elem_of_nil;
        try (intros [?|[[= ->]|?]]; [done| |event_elem]);
        try (intros [?|?]; [done|event_elem]);
        try (intros ?; event_elem).
      all: destruct (Hheld p ns h0 Hp Hh0) as (_ & ? & _); split; [lia|by left].
    + intros h. apply count_event_NoDup. unfold teardown_events.
      destruct (health_checked_connection ns), (socket ns); simpl;
        events_NoDup.
  - apply IH. destruct HI as (Hheld & Hdel & Hcount).
    eapply hc_safe_updated; [by split|done|lia|..]; simpl.
    + done.
    + intros h. destruct (health_checked_connection ns) as [h0|] eqn:Hh0;
        simpl; rewrite ?elem_of_cons, ?elem_of_nil.
      * intros [?|[[= ->]|[]]]; [done|].
        destruct (Hheld p ns h0 Hp Hh0) as (_ & ? & _). split; [lia|by left].
      * intros [?|[]]; done.
    + intros h. apply count_event_NoDup.
      destruct (health_checked_connection ns); simpl; events_NoDup.
Qed.

Lemma no_heartbeat_after_delete_app tr evs :
  no_heartbeat_after_delete tr →
  (∀ h, HeartbeatReceived h ∉ evs) →
  no_heartbeat_after_delete (tr ++ evs).
Proof.
  intros Htr Hevs l1 l2 h Heq.
  apply app_eq_app in Heq as [k [[-> Hk]|[-> Hk]]].
  - destruct k as [|x k]; simpl in Hk.
    + destruct (Hevs h). rewrite <- Hk. by left.
    + injection Hk as <- ->. exact (Htr l1 k h eq_refl).
  - destruct (Hevs h). rewrite Hk. apply elem_of_app. right. by left.
Qed.

Lemma no_heartbeat_after_delete_heartbeat tr h :
  no_heartbeat_after_delete tr →
  DeleteHealthCheckedConnection h ∉ tr →
  no_heartbeat_after_delete (tr ++ [HeartbeatReceived h]).
Proof.
  intros Htr Hh l1 l2 h' Heq.
  apply app_eq_app in Heq as [k [[Htr' Hk]|[Hl1 Hk]]].
  - destruct k as [|x k]; simplify_eq/=.
    + by rewrite app_nil_r in Hh.
    + exact (Htr l1 k h' eq_refl).
  - destruct k as [|x k]; simplify_eq/=.
    + by rewrite app_nil_r.
    + by destruct k.
Qed.

Lemma heartbeat_step op m m' :
  hc_safe m → no_heartbeat_after_delete (trace m) →
  step_spec op m m' → no_heartbeat_after_delete (trace m').
Proof.
  intros HI HJ Hstep.
  induction Hstep as [ip m Htr|ip m Hk|ip port sock ok m Hk
                 |ip port s m p ns Hk Hp
                 |ip port s m p ns Hk Hp|ip m Hk|ip m p ns Hk Hp
                 |p m ns s m' Hp Hs Hinner IH|header m Ht|header m Ht Hk
                 |header m p ns Ht Hk Hp Hh|header m p ns h Ht Hk Hp Hh];
    try done; simpl;
    try (apply no_heartbeat_after_delete_app; [done|]; intros h0;
         try destruct sock;
         try destruct (health_checked_connection ns);
         try (unfold teardown_events; destruct (socket ns));
         simpl; event_elem).
  - apply no_heartbeat_after_delete_app; [done|]. intros h0.
    unfold teardown_events.
    destruct (health_checked_connection ns), (socket ns); simpl; event_elem.
  - apply IH.
    + destruct HI as (Hheld & Hdel & Hcount).
      eapply hc_safe_updated; [by split|done|lia|..]; simpl.
      * done.
      * intros h. destruct (health_checked_connection ns) as [h0|] eqn:Hh0;
          simpl; rewrite ?elem_of_cons, ?elem_of_nil.
        -- intros [?|[[= ->]|[]]]; [done|].
           destruct (Hheld p ns h0 Hp Hh0) as (_ & ? & _).
           split; [lia|by left].
        -- intros [?|[]]; done.
      * intros h. apply count_event_NoDup.
        destruct (health_checked_connection ns); simpl; events_NoDup.
    + simpl. apply no_heartbeat_after_delete_app; [done|]. intros h0.
      destruct (health_checked_connection ns); simpl; event_elem.
  - apply no_heartbeat_after_delete_heartbeat; [done|].
    destruct HI as (Hheld & _). by destruct (Hheld p ns h Hp Hh) as (_ & _ & ?).
Qed.

Lemma run_hc_safe ops m :
  run ops monitor_new = Some m →
  hc_safe m ∧ no_heartbeat_after_delete (trace m).
Proof.
  apply (run_invariant
           (λ m, hc_safe m ∧ no_heartbeat_after_delete (trace m))
           (λ _ _, True)); [| |apply run_satisfies_True].
  - intros op m1 m2 [HI HJ] _ Hstep.
    split; [by eapply hc_safe_step | by eapply heartbeat_step].
  - split.
    + split; [|split]; simpl.
      * intros p ns h. by rewrite lookup_empty.
      * intros h. by rewrite elem_of_nil.
      * intros h. unfold count_event. simpl. lia.
    + intros l1 l2 h Heq. simpl in Heq. by destruct l1.
Qed.

(** Whatever callbacks run on a new monitor, a health checked connection
    is deleted at most once, the one an entry holds has not been deleted,
    and [HeartbeatReceived] is never called on one that was deleted
    before. *)
Theorem health_check_never_used_after_delete
    (ops : list Op) (m : SimpleE133Monitor) :
  run ops monitor_new = Some m →
  (∀ h, (count_event (DeleteHealthCheckedConnection h) (trace m) ≤ 1)%nat) ∧
  (∀ ip ns h,
     node_of m ip = Some ns → health_checked_connection ns = Some h →
     DeleteHealthCheckedConnection h ∉ trace m) ∧
  (∀ before after h,
     trace m = before ++ HeartbeatReceived h :: after →
     DeleteHealthCheckedConnection h ∉ before).
Proof.
  intros Hrun. destruct (run_hc_safe ops m Hrun) as [(Hheld & _ & Hcount) HJ].
  split; [done|]. split; [|exact HJ].
  intros ip ns h Hn Hh. unfold node_of in Hn.
  destruct (m_ip_map m !! AsInt ip) as [p|]; simpl in Hn; [|done].
  by destruct (Hheld p ns h Hn Hh) as (_ & _ & ?).
Qed.

Lemma health_check_never_used_after_delete_witness :
  run both_added_A_connected monitor_new = Some monitor_A_connected ∧
  DeleteHealthCheckedConnection hcA ∉ trace monitor_A_connected.
Proof.
  assert (Hrun : run both_added_A_connected monitor_new
                 = Some monitor_A_connected) by (vm_compute; reflexivity).
  split; [exact Hrun|].
  destruct (health_check_never_used_after_delete both_added_A_connected
              monitor_A_connected Hrun) as (_ & Hheld & _).
  apply (Hheld ipA
           {| socket := Some sockA; health_checked_connection := Some hcA;
              connection_attempts := 1 |} hcA); reflexivity.
Defined.

(** ** No dangling socket *)

Lemma sockets_safe_with_events m evs :
  sockets_safe m →
  (∀ s, DeleteSocket s ∈ evs →
        (DeleteSocket s ∉ trace m) ∧
        ∀ q nq, heap m !! q = Some nq → socket nq ≠ Some s) →
  (∀ s, (count_event (DeleteSocket s) evs ≤ 1)%nat) →
  sockets_safe (with_events m evs).
Proof.
  intros (Hheld & Hdistinct & Hcount) Hevs Hone. split; [|split]; simpl.
  - intros p ns s Hp Hs. rewrite elem_of_app.
    intros [Htr|Hin]; [by eapply Hheld|].
    destruct (Hevs s Hin) as [_ Hnobody]. by eapply Hnobody.
  - exact Hdistinct.
  - intros s. apply count_event_extend; [done..|]. by intros [? _]%Hevs.
Qed.

Lemma sockets_safe_updated m p ns ns' nh evs :
  sockets_safe m →
  heap m !! p = Some ns →
  (∀ s, socket ns' = Some s →
        (DeleteSocket s ∉ trace m ++ evs) ∧
        (socket ns = Some s ∨
         ∀ q nq, heap m !! q = Some nq → socket nq ≠ Some s)) →
  (∀ s, DeleteSocket s ∈ evs →
        (DeleteSocket s ∉ trace m) ∧
        (socket ns = Some s ∨
         ∀ q nq, heap m !! q = Some nq → socket nq ≠ Some s)) →
  (∀ s, (count_event (DeleteSocket s) evs ≤ 1)%nat) →
  sockets_safe (updated m p ns' nh evs).
Proof.
  intros (Hheld & Hdistinct & Hcount) Hp Hnew Hevs Hone.
  assert (Hother : ∀ q nq s,
            q ≠ p → heap m !! q = Some nq → socket nq = Some s →
            ¬ (socket ns = Some s ∨
               ∀ q nq, heap m !! q = Some nq → socket nq ≠ Some s)).
  { intros q nq s Hne Hq Hs [Hs'|Hnobody].
    - apply Hne. by eapply Hdistinct.
    - by eapply Hnobody. }
  split; [|split].
  - intros q nq s [[-> ->]|[Hne Hq]]%lookup_updated Hs.
    + by destruct (Hnew s Hs).
    + simpl. rewrite elem_of_app. intros [Htr|Hin]; [by eapply Hheld|].
      destruct (Hevs s Hin) as [_ Hcase]. by eapply Hother.
  - intros q1 q2 n1 n2 s [[-> ->]|[Hne1 Hq1]]%lookup_updated
      [[-> ->]|[Hne2 Hq2]]%lookup_updated Hs1 Hs2; [done| | |by eauto].
    + destruct (Hnew s Hs1) as [_ Hcase]. by destruct (Hother q2 n2 s).
    + destruct (Hnew s Hs2) as [_ Hcase]. by destruct (Hother q1 n1 s).
  - intros s. simpl. apply count_event_extend; [done..|].
    by intros [? _]%Hevs.
Qed.

Lemma sockets_safe_step op m m' :
  sockets_safe m → delivers_new_socket op m →
  step_spec op m m' → sockets_safe m'.
Proof.
  intros HI Hpre Hstep.
  induction Hstep as [ip m Htr|ip m Hk|ip port sock ok m Hk
                 |ip port s m p ns Hk Hp
                 |ip port s m p ns Hk Hp|ip m Hk|ip m p ns Hk Hp
                 |p m ns s m' Hp Hs _ IH|header m Ht|header m Ht Hk
                 |header m p ns Ht Hk Hp Hh|header m p ns h Ht Hk Hp Hh];
    try done;
    try (apply sockets_safe_with_events; [done| |];
         intros s0; [event_elem | apply count_event_NoDup; events_NoDup]).
  - destruct HI as (Hheld & Hdistinct & Hcount). split; [|split].
    + intros q nq s [[_ ->]|Hq]%lookup_added Hs; [done|]. simpl.
      rewrite elem_of_app. intros [?|?]; [by eapply Hheld|]. revert H.
      event_elem.
    + intros q1 q2 n1 n2 s [[_ ->]|Hq1]%lookup_added
        [[_ ->]|Hq2]%lookup_added; try done. by eauto.
    + intros s. simpl. apply count_event_extend; [done| |event_elem].
      apply count_event_NoDup. events_NoDup.
  - destruct sock as [s|]; simpl in Hpre.
    + destruct Hpre as [Hnew Hnobody].
      apply sockets_safe_with_events; [done| |].
      * intros s0. rewrite !elem_of_cons, elem_of_nil.
        intros [?|[?|[[= ->]|[]]]]; done.
      * intros s0. apply count_event_NoDup. events_NoDup.
    + apply sockets_safe_with_events; [done| |].
      * intros s0. event_elem.
      * intros s0. apply count_event_NoDup. events_NoDup.
  - destruct Hpre as [Hnew Hnobody].
    eapply sockets_safe_updated; [done..| | |]; simpl.
    + done.
    + intros s0. rewrite !elem_of_cons, elem_of_nil.
      intros [?|[?|[?|[?|[?|[[= ->]|[]]]]]]]; try done. split; [done|by right].
    + intros s0. apply count_event_NoDup. events_NoDup.
  - destruct Hpre as [Hnew Hnobody].
    eapply sockets_safe_updated; [done..| | |]; simpl.
    + intros s0 [= <-]. split; [|by right]. rewrite elem_of_app.
      intros [?|Hin]; [done|]. revert Hin.
      destruct (health_checked_connection ns); simpl; event_elem.
    + intros s0. destruct (health_checked_connection ns); simpl; event_elem.
    + intros s0. apply count_event_NoDup.
      destruct (health_checked_connection ns); simpl; events_NoDup.
  - destruct HI as (Hheld & Hdistinct & Hcount).
    eapply sockets_safe_updated; [by split|done|..]; simpl.
    + done.
    + intros s0. unfold teardown_events.
      destruct (health_checked_connection ns), (socket ns) as [s1|] eqn:Hs1;
        simpl; rewrite ?elem_of_cons, ?elem_of_nil; intros Hin;
        try (exfalso; revert Hin; clear; intuition congruence).
      all: assert (s0 = s1) as -> by (clear -Hin; intuition congruence).
      all: split; [by eapply Hheld | by left].
    + intros s0. apply count_event_NoDup. unfold teardown_events.
      destruct (health_checked_connection ns), (socket ns); simpl;
        events_NoDup.
  - apply IH; [|done]. destruct HI as (Hheld & Hdistinct & Hcount).
    eapply sockets_safe_updated; [by split|done|..]; simpl.
    + intros s0 Hs0. split; [|by left]. rewrite elem_of_app.
      intros [?|Hin]; [by eapply Hheld|]. revert Hin.
      destruct (health_checked_connection ns); simpl; event_elem.
    + intros s0. destruct (health_checked_connection ns); simpl; event_elem.
    + intros s0. apply count_event_NoDup.
      destruct (health_checked_connection ns); simpl; events_NoDup.
Qed.

(** When the connector only hands over sockets that have not been deleted
    and that no entry holds, then whatever callbacks run on a new monitor,
    no socket is deleted twice and the socket an entry holds has not been
    deleted. *)
Theorem socket_never_used_after_delete
    (ops : list Op) (m : SimpleE133Monitor) :
  run_satisfies delivers_new_socket ops monitor_new →
  run ops monitor_new = Some m →
  (∀ s, (count_event (DeleteSocket s) (trace m) ≤ 1)%nat) ∧
  (∀ ip ns s,
     node_of m ip = Some ns → socket ns = Some s →
     DeleteSocket s ∉ trace m).
Proof.
  intros Hpre Hrun.
  assert (HI : sockets_safe m).
  { apply (run_invariant sockets_safe delivers_new_socket)
      with (ops := ops) (m := monitor_new); [|split; [|split]|done..].
    - intros op m1 m2 HI Hop Hstep. by eapply sockets_safe_step.
    - intros p ns s. simpl. by rewrite lookup_empty.
    - intros p q ns nq s. simpl. by rewrite lookup_empty.
    - intros s. unfold count_event. simpl. lia. }
  destruct HI as (Hheld & _ & Hcount). split; [done|].
  intros ip ns s Hn Hs. unfold node_of in Hn.
  destruct (m_ip_map m !! AsInt ip) as [p|]; simpl in Hn; [|done].
  by eapply Hheld.
Qed.

Lemma socket_never_used_after_delete_witness :
  run_satisfies delivers_new_socket
    (both_added_A_connected ++ [OpSocketClosed ipA]) monitor_new ∧
  ∃ m, run (both_added_A_connected ++ [OpSocketClosed ipA]) monitor_new
         = Some m ∧
       count_event (DeleteSocket sockA) (trace m) = 1%nat ∧
       (count_event (DeleteSocket sockA) (trace m) ≤ 1)%nat.
Proof.
  assert (Hpre : run_satisfies delivers_new_socket
                   (both_added_A_connected ++ [OpSocketClosed ipA])
                   monitor_new).
  { apply (bool_decide_unpack _). vm_compute. exact I. }
  split; [exact Hpre|]. eexists. split; [vm_compute; reflexivity|].
  split; [vm_compute; reflexivity|].
  refine (proj1 (socket_never_used_after_delete
                   (both_added_A_connected ++ [OpSocketClosed ipA]) _ Hpre _)
            sockA).
  vm_compute. reflexivity.
Defined.

(** ** The health checked connection and its entry *)

Lemma admissible_run_satisfies ops m :
  admissible_run ops m →
  run_satisfies no_failed_setup_over_health_check ops m.
Proof.
  revert m. induction ops as [|op ops IH]; intros m; simpl; [done|].
  intros [Hop Hrest]. split; [done|]. destruct (step op m); [by apply IH|done].
Qed.

Lemma hc_bound_updated m p ns' nh evs :
  hc_bound m →
  (∀ h, health_checked_connection ns' = Some h →
        hc_node h = p ∧ socket ns' = Some (hc_socket h)) →
  hc_bound (updated m p ns' nh evs).
Proof.
  intros HI Hnew q nq h [[-> ->]|[_ Hq]]%lookup_updated Hh;
    [by apply Hnew | by eapply HI].
Qed.

Lemma hc_bound_step op m m' :
  hc_bound m → no_failed_setup_over_health_check op m →
  step_spec op m m' → hc_bound m'.
Proof.
  intros HI Hpre Hstep.
  induction Hstep as [ip m Htr|ip m Hk|ip port sock ok m Hk
                 |ip port s m p ns Hk Hp
                 |ip port s m p ns Hk Hp|ip m Hk|ip m p ns Hk Hp
                 |p m ns s m' Hp Hs _ IH|header m Ht|header m Ht Hk
                 |header m p ns Ht Hk Hp Hh|header m p ns h Ht Hk Hp Hh];
    try done.
  - intros q nq h [[_ ->]|Hq]%lookup_added Hh; [done | by eapply HI].
  - apply hc_bound_updated; [done|]. simpl. intros h Hh.
    rewrite (Hpre ns) in Hh; [done|]. unfold node_of. rewrite Hk. exact Hp.
  - apply hc_bound_updated; [done|]. simpl. by intros h [= <-].
  - by apply hc_bound_updated.
  - apply IH; [|done]. by apply hc_bound_updated.
Qed.

Lemma run_hc_bound ops m :
  admissible_run ops monitor_new → run ops monitor_new = Some m →
  hc_bound m.
Proof.
  intros Hadm. apply (run_invariant hc_bound no_failed_setup_over_health_check);
    [| |by apply admissible_run_satisfies].
  - intros op m1 m2 HI Hop Hstep. by eapply hc_bound_step.
  - intros p ns h. simpl. by rewrite lookup_empty.
Qed.

(** After any sequence of callbacks on a new monitor in which no
    connection with a failing Setup() is delivered over an attached health
    checked connection, the health checked connection of an entry watches
    the socket that the entry holds, and its unhealthy callback is bound to
    the node state of that very entry. *)
Theorem health_check_watches_entry_socket
    (ops : list Op) (m : SimpleE133Monitor) (ip : IPV4Address)
    (ns : NodeTCPState) (h : E133HealthCheckedConnection) :
  admissible_run ops monitor_new →
  run ops monitor_new = Some m →
  node_of m ip = Some ns →
  health_checked_connection ns = Some h →
  socket ns = Some (hc_socket h) ∧
  m_ip_map m !! AsInt ip = Some (hc_node h).
Proof.
  intros Hadm Hrun Hn Hh. pose proof (run_hc_bound ops m Hadm Hrun) as HI.
  unfold node_of in Hn.
  destruct (m_ip_map m !! AsInt ip) as [p|]; simpl in Hn; [|done].
  destruct (HI p ns h Hn Hh) as [-> ?]. by split.
Qed.

Lemma health_check_watches_entry_socket_witness :
  admissible_run both_added_A_connected monitor_new ∧
  run both_added_A_connected monitor_new = Some monitor_A_connected ∧
  Some sockA = Some (hc_socket hcA) ∧
  m_ip_map monitor_A_connected !! AsInt ipA = Some (hc_node hcA).
Proof.
  split; [simpl; repeat split|]. split; [vm_compute; reflexivity|].
  apply (health_check_watches_entry_socket both_added_A_connected
           monitor_A_connected ipA
           {| socket := Some sockA; health_checked_connection := Some hcA;
              connection_attempts := 1 |} hcA).
  - simpl. repeat split.
  - vm_compute. reflexivity.
  - vm_compute. reflexivity.
  - reflexivity.
Defined.

Lemma run_sockets_safe ops m :
  run_satisfies delivers_new_socket ops monitor_new →
  run ops monitor_new = Some m →
  sockets_safe m.
Proof.
  apply (run_invariant sockets_safe delivers_new_socket).
  - intros op m1 m2 HI Hop Hstep. by eapply sockets_safe_step.
  - split; [|split].
    + intros p ns s. simpl. by rewrite lookup_empty.
    + intros p q ns nq s. simpl. by rewrite lookup_empty.
    + intros s. unfold count_event. simpl. lia.
Qed.

(** A callback only ever appends to the trace. *)
Lemma step_spec_trace op m m' :
  step_spec op m m' → trace m' = trace m ++ events_since m m'.
Proof.
  intros Hstep.
  assert (Hex : ∃ evs, trace m' = trace m ++ evs).
  { induction Hstep as [ip m Htr|ip m Hk|ip port sock ok m Hk
                   |ip port s m p ns Hk Hp
                   |ip port s m p ns Hk Hp|ip m Hk|ip m p ns Hk Hp
                   |p m ns s m' Hp Hs _ IH|header m Ht|header m Ht Hk
                   |header m p ns Ht Hk Hp Hh|header m p ns h Ht Hk Hp Hh];
      try (by eexists); try (exists []; by rewrite app_nil_r).
    destruct IH as [evs ->]. simpl. rewrite <- app_assoc. by eexists. }
  destruct Hex as [evs Hevs]. by rewrite (events_since_app _ _ _ Hevs).
Qed.

Lemma count_event_elem e evs : e ∈ evs → (1 ≤ count_event e evs)%nat.
Proof.
  intros Hin. destruct (count_event e evs) eqn:Hc; [|lia].
  apply length_zero_iff_nil in Hc.
  assert (He : e ∈ filter (λ e', e' = e) evs)
    by (by apply list_elem_of_filter).
  rewrite Hc in He. by apply elem_of_nil in He.
Qed.

(** What occurs at most once and occurs late did not occur before. *)
Lemma occurs_once e tr evs :
  (count_event e (tr ++ evs) ≤ 1)%nat → e ∈ evs → e ∉ tr.
Proof.
  rewrite count_event_app. intros Hc Hin Htr.
  apply count_event_elem in Hin. apply count_event_elem in Htr. lia.
Qed.

(** The path that [SocketUnhealthy] takes for a node state whose health
    checked connection is attached and watches the socket of that node
    state. *)
Lemma SocketUnhealthy_attached m p ns h :
  wf m → hc_bound m →
  heap m !! p = Some ns →
  health_checked_connection ns = Some h →
  ∃ m' ns',
    step_spec (OpSocketUnhealthy p) m m' ∧
    DeleteHealthCheckedConnection h ∈ events_since m m' ∧
    heap m' !! p = Some ns' ∧
    health_checked_connection ns' = None.
Proof.
  intros [Hal Hinj] Hb Hp Hh.
  destruct (Hb p ns h Hp Hh) as [Hnode Hs].
  set (mid := updated m p (set_health_checked_connection None ns) (next_hc m)
                (Log OLA_LOG_INFO "connection went unhealthy" ::
                 hc_deletion (health_checked_connection ns))).
  assert (Hin : ∀ evs, DeleteHealthCheckedConnection h ∈
                  (Log OLA_LOG_INFO "connection went unhealthy" ::
                   hc_deletion (health_checked_connection ns)) ++ evs).
  { intros evs. rewrite Hh. simpl. event_elem. }
  destruct (m_ip_map m !! AsInt (GetPeer (hc_socket h))) as [q|] eqn:Hk.
  - assert (Hq : ∃ nq, heap mid !! q = Some nq ∧
                       (q = p → health_checked_connection nq = None)).
    { simpl. destruct (decide (p = q)) as [<-|Hne].
      - rewrite lookup_insert_eq. by eexists.
      - rewrite lookup_insert_ne by done. destruct (Hal _ _ Hk) as [nq Hq].
        exists nq. split; [done|]. by intros ->. }
    destruct Hq as (nq & Hq & Hnq).
    assert (Hstep : step_spec (OpSocketUnhealthy p) m
              (updated mid q (torn_down nq) (next_hc mid)
                 (Log OLA_LOG_INFO "connection was closed" ::
                  teardown_events nq))).
    { eapply spec_unhealthy; [done..|]. by apply spec_closed. }
    destruct (decide (q = p)) as [->|Hne].
    + eexists _, (torn_down nq).
      split; [exact Hstep|]. split; [|split; [|done]].
      * erewrite events_since_app;
          [|simpl; rewrite <- app_assoc; reflexivity]. apply Hin.
      * simpl. by rewrite lookup_insert_eq.
    + eexists _, (set_health_checked_connection None ns).
      split; [exact Hstep|]. split; [|split; [|done]].
      * erewrite events_since_app;
          [|simpl; rewrite <- app_assoc; reflexivity]. apply Hin.
      * simpl. rewrite lookup_insert_ne by done. by rewrite lookup_insert_eq.
  - assert (Hstep : step_spec (OpSocketUnhealthy p) m
              (with_events mid
                 [Log OLA_LOG_INFO "connection was closed";
                  Log OLA_LOG_FATAL "Unable to locate socket for"])).
    { eapply spec_unhealthy; [done..|]. by apply spec_closed_untracked. }
    eexists _, (set_health_checked_connection None ns).
    split; [exact Hstep|]. split; [|split; [|done]].
    + erewrite events_since_app;
        [|simpl; rewrite <- app_assoc; reflexivity]. apply Hin.
    + simpl. by rewrite lookup_insert_eq.
Qed.

(** In a state reached by such a run in which, moreover, the connector
    only handed over sockets that had not been deleted and that no entry
    held, the unhealthy callback of an attached health checked connection
    runs through without following a null or dangling pointer: the node
    state has a socket to ask for its peer and that socket has not been
    deleted, the health checked connection has not been deleted before,
    and no health checked connection and no socket that the callback
    deletes was deleted before.  The callback deletes the health checked
    connection and leaves its entry without one. *)
Theorem SocketUnhealthy_runs_through
    (ops : list Op) (m : SimpleE133Monitor) (p : loc) (ns : NodeTCPState)
    (h : E133HealthCheckedConnection) :
  admissible_run ops monitor_new →
  run_satisfies delivers_new_socket ops monitor_new →
  run ops monitor_new = Some m →
  heap m !! p = Some ns →
  health_checked_connection ns = Some h →
  ∃ s m' ns',
    hc_node h = p ∧
    socket ns = Some s ∧
    (DeleteSocket s ∉ trace m) ∧
    (DeleteHealthCheckedConnection h ∉ trace m) ∧
    SocketUnhealthy (hc_node h) m = Some m' ∧
    DeleteHealthCheckedConnection h ∈ events_since m m' ∧
    (∀ h', DeleteHealthCheckedConnection h' ∈ events_since m m' →
           DeleteHealthCheckedConnection h' ∉ trace m) ∧
    (∀ s', DeleteSocket s' ∈ events_since m m' →
           DeleteSocket s' ∉ trace m) ∧
    heap m' !! p = Some ns' ∧
    health_checked_connection ns' = None.
Proof.
  intros Hadm Hnew Hrun Hp Hh.
  pose proof (run_hc_bound ops m Hadm Hrun) as Hb.
  destruct (run_hc_safe ops m Hrun) as [Hhc _].
  pose proof (run_sockets_safe ops m Hnew Hrun) as Hso.
  assert (Hr : reachable m)
    by (eapply run_reachable; [apply reachable_new | done..]).
  destruct (reachable_Inv m Hr) as [Hwf _].
  destruct (Hb p ns h Hp Hh) as [Hnode Hs].
  destruct (SocketUnhealthy_attached m p ns h Hwf Hb Hp Hh)
    as (m' & ns' & Hstep & Hin & Hp' & Hh').
  pose proof (step_spec_trace _ _ _ Hstep) as Htr.
  destruct (hc_safe_step _ _ _ Hhc Hstep) as (_ & _ & Hc1).
  destruct (sockets_safe_step (OpSocketUnhealthy p) m m' Hso I Hstep)
    as (_ & _ & Hc2).
  destruct Hhc as (Hheld & _). destruct Hso as (Hsock & _).
  exists (hc_socket h), m', ns'.
  split; [done|]. split; [done|]. split; [by eapply Hsock|].
  split; [by destruct (Hheld p ns h Hp Hh) as (_ & _ & ?)|].
  rewrite Hnode. split; [exact (step_spec_sound _ _ _ Hstep)|].
  split; [done|].
  split; [|split; [|done]].
  - intros h' Hh'in. eapply occurs_once; [|exact Hh'in].
    rewrite <- Htr. apply Hc1.
  - intros s' Hs'in. eapply occurs_once; [|exact Hs'in].
    rewrite <- Htr. apply Hc2.
Qed.

Lemma SocketUnhealthy_runs_through_witness :
  admissible_run both_added_A_connected monitor_new ∧
  run_satisfies delivers_new_socket both_added_A_connected monitor_new ∧
  run both_added_A_connected monitor_new = Some monitor_A_connected ∧
  ∃ s m' ns',
    Some sockA = Some s ∧
    (DeleteSocket s ∉ trace monitor_A_connected) ∧
    SocketUnhealthy (hc_node hcA) monitor_A_connected = Some m' ∧
    DeleteHealthCheckedConnection hcA ∈ events_since monitor_A_connected m' ∧
    heap m' !! 1%positive = Some ns' ∧
    health_checked_connection ns' = None.
Proof.
  assert (Hnew : run_satisfies delivers_new_socket both_added_A_connected
                   monitor_new).
  { apply (bool_decide_unpack _). vm_compute. exact I. }
  split; [simpl; repeat split|]. split; [exact Hnew|].
  split; [vm_compute; reflexivity|].
  destruct (SocketUnhealthy_runs_through both_added_A_connected
              monitor_A_connected 1%positive
              {| socket := Some sockA; health_checked_connection := Some hcA;
                 connection_attempts := 1 |} hcA)
    as (s & m' & ns' & _ & Hs & Hlive & _ & Hrun & Hin & _ & _ & Hp & Hh).
  - simpl. repeat split.
  - exact Hnew.
  - vm_compute. reflexivity.
  - vm_compute. reflexivity.
  - reflexivity.
  - exists s, m', ns'. repeat split; assumption.
Defined.

(** ** Connecting and closing *)

(** For an entry that has neither socket nor health checked connection, a
    connection that is set up and then closed, and a connection whose
    Setup() fails, both leave the table and every node state exactly as
    they were; the health checked connection that was constructed and the
    socket that was delivered have been deleted. *)
Theorem connection_leaves_entry_as_before
    (ip : IPV4Address) (port : N) (s : TcpSocket) (m : SimpleE133Monitor)
    (p : loc) (ns : NodeTCPState) :
  m_ip_map m !! AsInt ip = Some p →
  heap m !! p = Some ns →
  socket ns = None →
  health_checked_connection ns = None →
  (∃ m1 m2,
     OnTCPConnect ip port (Some s) true m = Some m1 ∧
     SocketClosed ip m1 = Some m2 ∧
     m_ip_map m2 = m_ip_map m ∧ heap m2 = heap m ∧
     events_since m1 m2 =
       [Log OLA_LOG_INFO "connection was closed";
        DeleteHealthCheckedConnection (new_hc m s p);
        RemoveReadDescriptor (Some s); DeleteSocket s; Terminate]) ∧
  (∃ m1,
     OnTCPConnect ip port (Some s) false m = Some m1 ∧
     m_ip_map m1 = m_ip_map m ∧ heap m1 = heap m ∧
     DeleteHealthCheckedConnection (new_hc m s p) ∈ events_since m m1 ∧
     DeleteSocket s ∈ events_since m m1).
Proof.
  intros Hk Hp Hs Hh.
  assert (Hns : ns = {| socket := None; health_checked_connection := None;
                        connection_attempts := connection_attempts ns |}).
  { destruct ns; simpl in *; by subst. }
  split.
  - eexists _, _. split; [by apply OnTCPConnect_setup_ok|].
    split; [apply SocketClosed_tracked; simpl;
            [exact Hk | by rewrite lookup_insert_eq]|].
    split; [done|]. split.
    + simpl. rewrite insert_insert_eq. unfold torn_down. simpl.
      rewrite <- Hns. by apply insert_id.
    + by apply events_since_app.
  - eexists. split; [by apply OnTCPConnect_setup_failed|].
    split; [done|]. split.
    + simpl. rewrite Hh, <- Hns. by apply insert_id.
    + erewrite events_since_app; [|reflexivity]. split; event_elem.
Qed.

Lemma connection_leaves_entry_as_before_witness :
  m_ip_map monitor_A_connected !! AsInt ipB = Some 2%positive ∧
  heap monitor_A_connected !! 2%positive =
    Some {| socket := None; health_checked_connection := None;
            connection_attempts := 1 |} ∧
  ∃ m1 m2,
    OnTCPConnect ipB 5569 (Some sockB) true monitor_A_connected = Some m1 ∧
    SocketClosed ipB m1 = Some m2 ∧
    heap m2 = heap monitor_A_connected.
Proof.
  split; [reflexivity|]. split; [reflexivity|].
  destruct (connection_leaves_entry_as_before ipB 5569 sockB
              monitor_A_connected 2%positive
              {| socket := None; health_checked_connection := None;
                 connection_attempts := 1 |}
              eq_refl eq_refl eq_refl eq_refl)
    as [(m1 & m2 & H1 & H2 & _ & Hheap & _) _].
  exists m1, m2. split; [exact H1|]. split; [exact H2 | exact Hheap].
Defined.

(** Once [SocketClosed] has run for a tracked address, running it again
    changes no node state and deletes nothing, yet it still asks the
    select server to remove a null descriptor and to terminate. *)
Theorem SocketClosed_again
    (ip : IPV4Address) (m m1 : SimpleE133Monitor) :
  is_Some (m_ip_map m !! AsInt ip) →
  SocketClosed ip m = Some m1 →
  ∃ m2, SocketClosed ip m1 = Some m2 ∧
        m_ip_map m2 = m_ip_map m1 ∧ heap m2 = heap m1 ∧
        events_since m1 m2 =
          [Log OLA_LOG_INFO "connection was closed";
           RemoveReadDescriptor None; Terminate].
Proof.
  intros [p Hk]. destruct (heap m !! p) as [ns|] eqn:Hp.
  - rewrite (SocketClosed_tracked _ _ _ _ Hk Hp). intros [= <-].
    eexists. split; [apply SocketClosed_tracked; simpl;
                     [exact Hk | by rewrite lookup_insert_eq]|].
    split; [done|]. split.
    + simpl. by rewrite insert_insert_eq.
    + by apply events_since_app.
  - unfold SocketClosed. simpl. rewrite Hk. simpl. by rewrite Hp.
Qed.

Lemma SocketClosed_again_witness :
  is_Some (m_ip_map monitor_A_connected !! AsInt ipA) ∧
  ∃ m1 m2, SocketClosed ipA monitor_A_connected = Some m1 ∧
           SocketClosed ipA m1 = Some m2 ∧ heap m2 = heap m1.
Proof.
  assert (Htr : is_Some (m_ip_map monitor_A_connected !! AsInt ipA))
    by (eexists; reflexivity).
  split; [exact Htr|].
  destruct (SocketClosed ipA monitor_A_connected) as [m1|] eqn:H1;
    [|vm_compute in H1; discriminate H1].
  destruct (SocketClosed_again ipA monitor_A_connected m1 Htr H1)
    as (m2 & H2 & _ & Hheap & _).
  exists m1, m2. split; [reflexivity|]. split; [exact H2 | exact Hheap].
Defined.

(** When the socket of a node state reports a peer address that is not
    mapped to that node state (it is untracked, or tracked by another
    entry), [SocketUnhealthy] deletes the health checked connection but
    leaves the socket in its slot; for an untracked peer nothing is removed
    from the select server and no termination is requested. *)
Theorem SocketUnhealthy_foreign_peer
    (p : loc) (m : SimpleE133Monitor) (ns : NodeTCPState) (s : TcpSocket) :
  wf m →
  heap m !! p = Some ns →
  socket ns = Some s →
  m_ip_map m !! AsInt (GetPeer s) ≠ Some p →
  ∃ m', SocketUnhealthy p m = Some m' ∧
        heap m' !! p =
          Some {| socket := Some s; health_checked_connection := None;
                  connection_attempts := connection_attempts ns |} ∧
        (m_ip_map m !! AsInt (GetPeer s) = None →
         events_since m m' =
           Log OLA_LOG_INFO "connection went unhealthy" ::
           hc_deletion (health_checked_connection ns) ++
           [Log OLA_LOG_INFO "connection was closed";
            Log OLA_LOG_FATAL "Unable to locate socket for"]).
Proof.
  intros [Hal _] Hp Hs Hpeer.
  set (mid := updated m p (set_health_checked_connection None ns) (next_hc m)
                (Log OLA_LOG_INFO "connection went unhealthy" ::
                 hc_deletion (health_checked_connection ns))).
  assert (Hslot : set_health_checked_connection None ns =
            {| socket := Some s; health_checked_connection := None;
               connection_attempts := connection_attempts ns |}).
  { unfold set_health_checked_connection. by rewrite Hs. }
  destruct (m_ip_map m !! AsInt (GetPeer s)) as [q|] eqn:Hk.
  - assert (Hne : q ≠ p) by congruence.
    destruct (Hal _ _ Hk) as [nq Hq].
    assert (Hstep : step_spec (OpSocketUnhealthy p) m
              (updated mid q (torn_down nq) (next_hc mid)
                 (Log OLA_LOG_INFO "connection was closed" ::
                  teardown_events nq))).
    { eapply spec_unhealthy; [done..|]. apply spec_closed; [done|].
      simpl. by rewrite lookup_insert_ne. }
    apply step_spec_sound in Hstep. simpl in Hstep.
    eexists. split; [exact Hstep|]. split; [|done]. simpl.
    rewrite lookup_insert_ne by done. by rewrite lookup_insert_eq, Hslot.
  - assert (Hstep : step_spec (OpSocketUnhealthy p) m
              (with_events mid
                 [Log OLA_LOG_INFO "connection was closed";
                  Log OLA_LOG_FATAL "Unable to locate socket for"])).
    { eapply spec_unhealthy; [done..|]. by apply spec_closed_untracked. }
    apply step_spec_sound in Hstep. simpl in Hstep.
    eexists. split; [exact Hstep|]. split.
    + simpl. by rewrite lookup_insert_eq, Hslot.
    + intros _. apply events_since_app. simpl. by rewrite <- app_assoc.
Qed.

Lemma SocketUnhealthy_foreign_peer_witness :
  ∃ m ns,
    run [OpAddIP ipA; OpOnTCPConnect ipA 5569 (Some sockB) true] monitor_new
      = Some m ∧
    wf m ∧
    heap m !! 1%positive = Some ns ∧
    socket ns = Some sockB ∧
    m_ip_map m !! AsInt (GetPeer sockB) ≠ Some 1%positive ∧
    ∃ m', SocketUnhealthy 1%positive m = Some m' ∧
          heap m' !! 1%positive =
            Some {| socket := Some sockB; health_checked_connection := None;
                    connection_attempts := connection_attempts ns |}.
Proof.
  destruct (run [OpAddIP ipA; OpOnTCPConnect ipA 5569 (Some sockB) true]
              monitor_new) as [m|] eqn:Hrun;
    [|vm_compute in Hrun; discriminate Hrun].
  assert (Hwf : wf m).
  { apply reachable_Inv.
    eapply run_reachable; [apply reachable_new| |exact Hrun].
    simpl. repeat split. }
  vm_compute in Hrun. injection Hrun as <-.
  eexists _, _. split; [reflexivity|]. split; [exact Hwf|].
  split; [reflexivity|]. split; [reflexivity|].
  assert (Hpeer : m_ip_map
    {| m_ip_map := {[ AsInt ipA := 1%positive ]};
       heap := {[ 1%positive :=
                    {| socket := Some sockB;
                       health_checked_connection :=
                         Some {| hc_id := 0; hc_socket := sockB;
                                 hc_node := 1%positive |};
                       connection_attempts := 1 |} ]};
       next_hc := 1;
       trace :=
         [Log OLA_LOG_INFO "Opening TCP connection to";
          AddEndpoint ipA E133_PORT m_backoff_policy_ref;
          NewHealthCheckedConnection
            {| hc_id := 0; hc_socket := sockB; hc_node := 1%positive |};
          Setup {| hc_id := 0; hc_socket := sockB; hc_node := 1%positive |}
            true;
          SetOnClose sockB ipA; SetOnData sockB; AddReadDescriptor sockB] |}
      !! AsInt (GetPeer sockB) ≠ Some 1%positive) by (vm_compute; congruence).
  split; [exact Hpeer|].
  destruct (SocketUnhealthy_foreign_peer 1%positive _ _ sockB Hwf
              eq_refl eq_refl Hpeer) as (m' & Hrun' & Hslot & _).
  exists m'. split; [exact Hrun' | exact Hslot].
Defined.

(** ** When the select server is told to terminate *)

Lemma terminate_step op m m' :
  step_spec op m m' →
  ∃ evs, trace m' = trace m ++ evs ∧
         (Terminate ∈ evs ↔ closes_tracked op m).
Proof.
  induction 1 as [ip m Htr|ip m Hk|ip port sock ok m Hk|ip port s m p ns Hk Hp
                 |ip port s m p ns Hk Hp|ip m Hk|ip m p ns Hk Hp
                 |p m ns s m' Hp Hs _ IH|header m Ht|header m Ht Hk
                 |header m p ns Ht Hk Hp Hh|header m p ns h Ht Hk Hp Hh];
    simpl;
    try (exists []; split; [by rewrite app_nil_r | event_elem]);
    try (eexists; split; [reflexivity|]; try destruct sock;
         try destruct (health_checked_connection ns); simpl; event_elem).
  - eexists. split; [reflexivity|]. rewrite Hk. split; [|intros [? ?]; done].
    event_elem.
  - eexists. split; [reflexivity|]. rewrite Hk. split; [eauto|]. intros _.
    apply elem_of_cons. right. apply teardown_events_Terminate.
  - destruct IH as (evs' & Htr & Hiff). simpl in Htr, Hiff.
    eexists. split; [rewrite Htr, <- app_assoc; reflexivity|].
    rewrite elem_of_app, Hiff. split.
    + intros [Hin|Hpeer]; [|by exists ns, s].
      revert Hin. destruct (health_checked_connection ns); simpl; event_elem.
    + intros (ns' & s' & Hp' & Hs' & Hpeer). right. congruence.
Qed.

(** Of the five callbacks, the only ones that ask the select server to
    terminate are those that close the connection of a tracked address:
    [SocketClosed] for an address in the table, and [SocketUnhealthy] when
    the socket's peer address is in the table.  They always do. *)
Theorem terminate_exactly_on_close
    (op : Op) (m m' : SimpleE133Monitor) :
  step op m = Some m' →
  (Terminate ∈ events_since m m' ↔ closes_tracked op m).
Proof.
  intros Hstep.
  destruct (terminate_step _ _ _ (step_spec_complete _ _ _ Hstep))
    as (evs & Htr & Hiff).
  by rewrite (events_since_app _ _ _ Htr).
Qed.

Lemma terminate_exactly_on_close_witness :
  ∃ m', step (OpSocketClosed ipA) monitor_A_connected = Some m' ∧
        closes_tracked (OpSocketClosed ipA) monitor_A_connected ∧
        Terminate ∈ events_since monitor_A_connected m'.
Proof.
  destruct (step (OpSocketClosed ipA) monitor_A_connected) as [m'|] eqn:Hstep;
    [|vm_compute in Hstep; discriminate Hstep].
  assert (Hclose : closes_tracked (OpSocketClosed ipA) monitor_A_connected)
    by (eexists; reflexivity).
  exists m'. split; [reflexivity|]. split; [exact Hclose|].
  apply (terminate_exactly_on_close (OpSocketClosed ipA)
           monitor_A_connected m' Hstep).
  exact Hclose.
Defined.

(** ** Data after a connection *)

(** Once a connection for a tracked address has been set up, E1.33 data
    that arrives over TCP with that address as source notifies exactly the
    health checked connection constructed for the connection, whatever
    peer the socket itself reports. *)
Theorem data_after_connect_is_heartbeat
    (ip : IPV4Address) (port : N) (s : TcpSocket) (m : SimpleE133Monitor)
    (header : TransportHeader) :
  wf m →
  is_Some (m_ip_map m !! AsInt ip) →
  Transport header = TCP →
  SourceIP header = ip →
  ∃ m1 m2 p,
    m_ip_map m !! AsInt ip = Some p ∧
    OnTCPConnect ip port (Some s) true m = Some m1 ∧
    E133DataReceived header m1 = Some m2 ∧
    events_since m1 m2 = [HeartbeatReceived (new_hc m s p)].
Proof.
  intros [Hal _] [p Hk] Ht <-. destruct (Hal _ _ Hk) as [ns Hp].
  eexists _, _, p. split; [done|].
  split; [by apply OnTCPConnect_setup_ok|]. split.
  - apply step_spec_sound with (op := OpE133DataReceived header).
    eapply spec_data_heartbeat; [done|exact Hk|..].
    + simpl. by rewrite lookup_insert_eq.
    + done.
  - by apply events_since_app.
Qed.

Lemma data_after_connect_is_heartbeat_witness :
  wf monitor_A_connected ∧
  is_Some (m_ip_map monitor_A_connected !! AsInt ipB) ∧
  ∃ m1 m2,
    OnTCPConnect ipB 5569 (Some sockB) true monitor_A_connected = Some m1 ∧
    E133DataReceived (mkTransportHeader ipB TCP) m1 = Some m2 ∧
    events_since m1 m2 =
      [HeartbeatReceived (new_hc monitor_A_connected sockB 2%positive)].
Proof.
  pose proof (reachable_Inv _ reachable_A_connected) as [Hwf _].
  assert (Htr : is_Some (m_ip_map monitor_A_connected !! AsInt ipB))
    by (eexists; reflexivity).
  split; [exact Hwf|]. split; [exact Htr|].
  destruct (data_after_connect_is_heartbeat ipB 5569 sockB
              monitor_A_connected (mkTransportHeader ipB TCP) Hwf Htr
              eq_refl eq_refl) as (m1 & m2 & p & Hp & H1 & H2 & Hev).
  assert (p = 2%positive) as -> by (vm_compute in Hp; congruence).
  exists m1, m2. split; [exact H1|]. split; [exact H2 | exact Hev].
Defined.

(** ** Loops that add addresses *)

Lemma grows_by_log m evs :
  (∀ e, e ∈ evs → ∃ level text, e = Log level text) →
  grows_by m (with_events m evs) [].
Proof.
  intros Hlog. split; [done|]. split.
  { intros ip. rewrite elem_of_nil. simpl. tauto. }
  split; [done|]. split; [done|]. split; [done|].
  exists evs. split; [done|]. split; [by left; apply Hlog|].
  intros ip. unfold connection_requests.
  rewrite count_event_notin.
  - split; [lia|]. rewrite elem_of_nil. split; [done | by intros [_ ?]].
  - intros Hin. by destruct (Hlog _ Hin) as (? & ? & ?).
Qed.

Lemma grows_by_AddIP ip m : grows_by m (AddIP ip m) [ip].
Proof.
  destruct (m_ip_map m !! AsInt ip) as [p|] eqn:Hk.
  - rewrite AddIP_tracked by (rewrite Hk; eauto).
    split; [done|]. split.
    { intros ip'. rewrite list_elem_of_singleton. split; [by left|].
      intros [? | ->]; [done|]. rewrite Hk. eauto. }
    split; [done|]. split; [done|]. split; [done|].
    exists []. split; [by rewrite app_nil_r|]. split; [by intros e ?%elem_of_nil|].
    intros ip'. unfold connection_requests, count_event. simpl.
    split; [lia|]. split; [done|]. rewrite list_elem_of_singleton.
    intros [Hnone ->]. congruence.
  - split; [rewrite AddIP_untracked by done; by apply insert_subseteq|].
    split.
    { intros ip'. rewrite AddIP_tracked_iff, list_elem_of_singleton.
      split.
      - intros [Heq|?]; [right | by left].
        destruct ip, ip'; simpl in Heq; by subst.
      - intros [? | ->]; [by right | by left]. }
    split.
    { intros q Hq. rewrite AddIP_untracked by done. simpl.
      apply lookup_insert_ne. intros <-.
      apply elem_of_dom in Hq. by apply is_fresh in Hq. }
    split; [by rewrite AddIP_untracked|]. split; [apply Inv_AddIP|].
    rewrite AddIP_untracked by done. eexists. split; [reflexivity|]. split.
    { intros e. rewrite !elem_of_cons, elem_of_nil.
      intros [->|[->|[]]]; [left; eauto | right; eauto]. }
    intros ip'. unfold connection_requests.
    rewrite !count_event_cons. unfold count_event. simpl.
    destruct (decide (AddEndpoint ip E133_PORT m_backoff_policy_ref =
                      AddEndpoint ip' E133_PORT m_backoff_policy_ref))
      as [[= ->]|Hne]; simpl.
    + split; [lia|]. split; [|done]. intros _.
      split; [done | by apply list_elem_of_singleton].
    + split; [lia|]. split; [done|]. rewrite list_elem_of_singleton.
      intros [_ ->]. done.
Qed.

Lemma grows_by_trans m m1 m2 ips1 ips2 :
  grows_by m m1 ips1 → grows_by m1 m2 ips2 → grows_by m m2 (ips1 ++ ips2).
Proof.
  intros (Hsub1 & Htr1 & Hheap1 & Hnh1 & HInv1 & evs1 & Hev1 & Hkind1 & Hreq1)
         (Hsub2 & Htr2 & Hheap2 & Hnh2 & HInv2 & evs2 & Hev2 & Hkind2 & Hreq2).
  split; [by etrans|]. split.
  { intros ip. rewrite Htr2, Htr1, elem_of_app. tauto. }
  split.
  { intros p Hp. rewrite Hheap2; [by apply Hheap1|]. by rewrite Hheap1. }
  split; [congruence|]. split; [by auto|].
  exists (evs1 ++ evs2). split; [by rewrite Hev2, Hev1, <- app_assoc|].
  split.
  { intros e [?|?]%elem_of_app; [by apply Hkind1 | by apply Hkind2]. }
  intros ip. unfold connection_requests in *. rewrite count_event_app.
  destruct (Hreq1 ip) as [Hle1 Hiff1], (Hreq2 ip) as [Hle2 Hiff2].
  specialize (Htr1 ip). rewrite elem_of_app.
  destruct (m_ip_map m !! AsInt ip) as [p|] eqn:Hk.
  - assert (Hk1 : is_Some (m_ip_map m1 !! AsInt ip))
      by (apply Htr1; left; eauto).
    assert (count_event (AddEndpoint ip E133_PORT m_backoff_policy_ref) evs1
            ≠ 1)%nat by (intros [Hn _]%Hiff1; done).
    assert (count_event (AddEndpoint ip E133_PORT m_backoff_policy_ref) evs2
            ≠ 1)%nat.
    { intros [Hn _]%Hiff2. rewrite Hn in Hk1. by destruct Hk1. }
    split; [lia|]. split; [lia | by intros [? _]].
  - destruct (decide (ip ∈ ips1)) as [Hin1|Hnotin1].
    + assert (count_event (AddEndpoint ip E133_PORT m_backoff_policy_ref) evs1
              = 1)%nat as -> by (by apply Hiff1).
      assert (Hk1 : is_Some (m_ip_map m1 !! AsInt ip))
        by (apply Htr1; by right).
      assert (count_event (AddEndpoint ip E133_PORT m_backoff_policy_ref) evs2
              ≠ 1)%nat.
      { intros [Hn _]%Hiff2. rewrite Hn in Hk1. by destruct Hk1. }
      split; [lia|]. split; [by auto | lia].
    + assert (count_event (AddEndpoint ip E133_PORT m_backoff_policy_ref) evs1
              ≠ 1)%nat by (intros [_ ?]%Hiff1; done).
      assert (Hk1 : m_ip_map m1 !! AsInt ip = None).
      { apply eq_None_not_Some. intros [Hs|?]%Htr1; [|done].
        by destruct Hs. }
      split; [lia|]. split.
      * intros Hsum. split; [done|]. right. apply Hiff2. lia.
      * intros [_ [?|Hin2]]; [done|].
        assert (count_event (AddEndpoint ip E133_PORT m_backoff_policy_ref)
                  evs2 = 1)%nat by (by apply Hiff2).
        lia.
Qed.

Lemma grows_by_located PS IB m url :
  grows_by m (located PS IB m url) (option_list (accepted PS IB url)).
Proof.
  unfold located, accepted. rewrite !emit_with_events.
  assert (Hlog : grows_by m (with_events m [Log OLA_LOG_INFO "Located"]) []).
  { apply grows_by_log. intros e ->%list_elem_of_singleton. eauto. }
  destruct (PS url) as [[uid ip]|]; [|exact Hlog].
  destruct (IB uid); simpl.
  - rewrite with_events_with_events. apply grows_by_log. simpl.
    intros e. rewrite !elem_of_cons, elem_of_nil.
    intros [->|[->|[]]]; eauto.
  - apply (grows_by_trans _ _ _ [] [ip] Hlog). apply grows_by_AddIP.
Qed.

Lemma grows_by_DiscoveryCallback PS IB urls m :
  grows_by m (DiscoveryCallback PS IB true urls m) (omap (accepted PS IB) urls).
Proof.
  unfold DiscoveryCallback. revert m.
  induction urls as [|url urls IH]; intros m; simpl.
  - replace m with (with_events m []) at 2
      by (destruct m; unfold with_events; simpl; by rewrite app_nil_r).
    by apply grows_by_log; intros e ?%elem_of_nil.
  - pose proof (grows_by_located PS IB m url) as Hone.
    pose proof (grows_by_trans _ _ _ _ _ Hone (IH (located PS IB m url)))
      as Hall.
    by destruct (accepted PS IB url).
Qed.

Lemma grows_by_foldl_AddIP targets m :
  grows_by m (foldl (λ mon ip, AddIP ip mon) m targets) targets.
Proof.
  revert m. induction targets as [|ip targets IH]; intros m; simpl.
  - replace m with (with_events m []) at 2
      by (destruct m; unfold with_events; simpl; by rewrite app_nil_r).
    by apply grows_by_log; intros e ?%elem_of_nil.
  - apply (grows_by_trans _ _ _ [ip] targets (grows_by_AddIP ip m)), IH.
Qed.

(** ** Discovery *)

Lemma accepted_Some PS IB url ip :
  accepted PS IB url = Some ip ↔
  ∃ uid, PS url = Some (uid, ip) ∧ IB uid = false.
Proof.
  unfold accepted. destruct (PS url) as [[uid ip']|].
  - destruct (IB uid) eqn:Hb.
    + split; [done|]. intros (uid' & [= <- <-] & ?). congruence.
    + split; [intros [= <-]; eauto|]. by intros (uid' & [= <- <-] & ?).
  - split; [done|]. by intros (? & ? & ?).
Qed.

Lemma elem_of_accepted PS IB (urls : list string) ip :
  ip ∈ omap (accepted PS IB) urls ↔
  ∃ url uid, url ∈ urls ∧ PS url = Some (uid, ip) ∧ IB uid = false.
Proof.
  rewrite list_elem_of_omap. split.
  - intros (url & Hin & (uid & ? & ?)%accepted_Some). eauto.
  - intros (url & uid & Hin & HPS & HIB). exists url. split; [done|].
    apply accepted_Some. eauto.
Qed.

Lemma DiscoveryCallback_failed PS IB urls m :
  DiscoveryCallback PS IB false urls m =
  with_events m [Log OLA_LOG_INFO "SLP discovery failed"].
Proof. reflexivity. Qed.

(** After [DiscoveryCallback] an address is tracked exactly when it was
    tracked before or, discovery having succeeded, some located URL parses
    to it with a UID that is not a broadcast UID.  URLs that do not parse
    and broadcast UIDs are skipped; a failed discovery adds nothing.  No
    entry is lost or re-pointed and no existing node state is touched. *)
Theorem DiscoveryCallback_tracks_accepted
    (ParseSlpUrl : string → option (UID * IPV4Address))
    (IsBroadcast : UID → bool) (ok : bool) (urls : list string)
    (m : SimpleE133Monitor) :
  let m' := DiscoveryCallback ParseSlpUrl IsBroadcast ok urls m in
  (∀ ip, is_Some (m_ip_map m' !! AsInt ip) ↔
         is_Some (m_ip_map m !! AsInt ip) ∨
         (ok = true ∧
          ∃ url uid, url ∈ urls ∧ ParseSlpUrl url = Some (uid, ip) ∧
                     IsBroadcast uid = false)) ∧
  m_ip_map m ⊆ m_ip_map m' ∧
  (∀ p, is_Some (heap m !! p) → heap m' !! p = heap m !! p) ∧
  next_hc m' = next_hc m.
Proof.
  destruct ok; simpl.
  - destruct (grows_by_DiscoveryCallback ParseSlpUrl IsBroadcast urls m)
      as (Hsub & Htr & Hheap & Hnh & _).
    split; [|done]. intros ip. rewrite Htr, elem_of_accepted.
    split; (intros [?|?]; [by left | right]); [done | by destruct H].
  - split; [|done]. intros ip. split; [by left|]. by intros [?|[? _]].
Qed.

(** [DiscoveryCallback] asks the connector to connect exactly once for
    each address that it newly tracks, however many URLs lead to it, and
    never for an address that was tracked already. *)
Theorem DiscoveryCallback_requests_once
    (ParseSlpUrl : string → option (UID * IPV4Address))
    (IsBroadcast : UID → bool) (ok : bool) (urls : list string)
    (m : SimpleE133Monitor) (ip : IPV4Address) :
  let m' := DiscoveryCallback ParseSlpUrl IsBroadcast ok urls m in
  (connection_requests ip (events_since m m') ≤ 1)%nat ∧
  (connection_requests ip (events_since m m') = 1%nat ↔
   ok = true ∧ m_ip_map m !! AsInt ip = None ∧
   ∃ url uid, url ∈ urls ∧ ParseSlpUrl url = Some (uid, ip) ∧
              IsBroadcast uid = false).
Proof.
  destruct ok; cbv zeta.
  - destruct (grows_by_DiscoveryCallback ParseSlpUrl IsBroadcast urls m)
      as (_ & _ & _ & _ & _ & evs & Hev & _ & Hreq).
    rewrite (events_since_app _ _ _ Hev). destruct (Hreq ip) as [Hle Hiff].
    split; [done|]. rewrite Hiff, elem_of_accepted. tauto.
  - rewrite DiscoveryCallback_failed.
    erewrite events_since_app; [|reflexivity].
    unfold connection_requests, count_event. simpl. split; [lia|].
    split; [done | by intros [? _]].
Qed.

(** ** Start-up, continued *)

(** When [main] gets as far as running the select server, the connector
    has been asked to connect exactly once for every tracked address, also
    for one that the target list names more than once, and for no other
    address. *)
Theorem main_requests_each_target_once
    (FromString : string → option IPV4Address)
    (pid_helper_Init slp_thread_Init : bool) (opts : options)
    (m : SimpleE133Monitor) (ip : IPV4Address) :
  main FromString pid_helper_Init slp_thread_Init opts = Started m →
  (connection_requests ip (trace m) ≤ 1)%nat ∧
  (connection_requests ip (trace m) = 1%nat ↔
   is_Some (m_ip_map m !! AsInt ip)).
Proof.
  unfold main, DisplayHelpAndExit. destruct (help opts); [done|].
  destruct (if bool_decide (target_addresses opts = EmptyString)
            then Some []
            else parse_targets FromString
                   (StringSplit (target_addresses opts)) [])
    as [targets|]; [|done].
  destruct pid_helper_Init; [|done]. destruct slp_thread_Init; [|done].
  simpl. destruct targets as [|t targets]; intros [= <-].
  - unfold connection_requests, count_event. simpl. split; [lia|].
    rewrite lookup_empty. split; [done | by intros [? ?]].
  - pose proof (grows_by_foldl_AddIP (t :: targets)
                  (emit SlpStart monitor_new)) as Hg.
    simpl in Hg.
    destruct Hg as (_ & Htr & _ & _ & _ & evs & Hev & _ & Hreq).
    unfold Run. simpl trace. simpl m_ip_map. rewrite Hev, Htr.
    destruct (Hreq ip) as [Hle Hiff].
    assert (Hcount : connection_requests ip
              ((trace (emit SlpStart monitor_new) ++ evs) ++ [SelectServerRun])
            = connection_requests ip evs).
    { unfold connection_requests. rewrite !count_event_app.
      unfold count_event at 1 3. simpl. lia. }
    rewrite Hcount. split; [done|]. rewrite Hiff. simpl.
    rewrite lookup_empty. split.
    + intros [_ ?]. by right.
    + intros [[? ?]|?]; [done|]. by split.
Qed.

Lemma main_requests_each_target_once_witness :
  ∃ m, main FromString_example true true options_same_target_twice
         = Started m ∧
       connection_requests ipA (trace m) = 1%nat.
Proof.
  destruct (main FromString_example true true options_same_target_twice)
    as [code called|m] eqn:Hmain; [vm_compute in Hmain; discriminate Hmain|].
  exists m. split; [reflexivity|].
  apply (main_requests_each_target_once FromString_example true true
           options_same_target_twice m ipA Hmain).
  vm_compute in Hmain. injection Hmain as <-. eexists. reflexivity.
Defined.

(** Every way in which [main] leaves through [exit] does so before
    anything was asked of the connector, of discovery or of the select
    server.  When it gets as far as running the select server, discovery
    has been started exactly when no target list was given, and then the
    table is still empty; with a target list the table is not empty. *)
Theorem main_discovers_iff_no_targets
    (FromString : string → option IPV4Address)
    (pid_helper_Init slp_thread_Init : bool) (opts : options) :
  match main FromString pid_helper_Init slp_thread_Init opts with
  | Exited code called =>
      ∀ e, e ∈ called → (∃ level text, e = Log level text) ∨ e = DisplayHelp
  | Started m =>
      help opts = false ∧ pid_helper_Init = true ∧ slp_thread_Init = true ∧
      (Discover ∈ trace m ↔ target_addresses opts = EmptyString) ∧
      (Discover ∈ trace m → m_ip_map m = ∅) ∧
      (target_addresses opts ≠ EmptyString → m_ip_map m ≠ ∅) ∧
      last (trace m) = Some SelectServerRun
  end.
Proof.
  unfold main, DisplayHelpAndExit. destruct (help opts).
  { intros e ->%list_elem_of_singleton. by right. }
  case_bool_decide as Hlist.
  - destruct pid_helper_Init; [|by intros e ?%elem_of_nil].
    destruct slp_thread_Init; simpl.
    + repeat split; try done; event_elem.
    + intros e ->%list_elem_of_singleton. eauto.
  - destruct (parse_targets FromString (StringSplit (target_addresses opts)) [])
      as [targets|] eqn:Hparse.
    + destruct pid_helper_Init; [|by intros e ?%elem_of_nil].
      destruct slp_thread_Init;
        [|simpl; intros e ->%list_elem_of_singleton; eauto].
      apply parse_targets_Some in Hparse as (l & -> & Hall). simpl app.
      destruct l as [|t l].
      { apply Forall2_length in Hall.
        pose proof (StringSplit_nonempty (target_addresses opts)) as Hne.
        by destruct (StringSplit (target_addresses opts)). }
      pose proof (grows_by_foldl_AddIP (t :: l) (emit SlpStart monitor_new))
        as Hg.
      simpl in Hg.
      destruct Hg as (_ & Htr & _ & _ & _ & evs & Hev & Hkind & _).
      simpl. rewrite Hev.
      assert (Hnodisc : Discover ∉ ([SlpStart] ++ evs) ++ [SelectServerRun]).
      { rewrite !elem_of_app, !elem_of_cons, !elem_of_nil.
        intros [[[?|[]]|Hin]|[?|[]]]; try done.
        by destruct (Hkind _ Hin) as [(? & ? & ?)|(? & ?)]. }
      split; [done|]. split; [done|]. split; [done|].
      split; [split; [by intros ?%Hnodisc | done]|].
      split; [by intros ?%Hnodisc|]. split.
      * intros _ Hempty. specialize (Htr t). rewrite Hempty in Htr.
        rewrite lookup_empty in Htr.
        assert (Ht : is_Some (@None loc)) by (apply Htr; right; by left).
        by destruct Ht.
      * apply last_snoc.
    + simpl. intros e. rewrite !elem_of_cons, elem_of_nil.
      intros [->|[->|[]]]; eauto.
Qed.

(** ** Destruction *)

Lemma delete_entries_spec (entries : list (N * loc)) m :
  NoDup (entries.*2) →
  (∀ k p, (k, p) ∈ entries → is_Some (heap m !! p)) →
  ∃ m', delete_entries entries m = Some m' ∧
        m_ip_map m' = m_ip_map m ∧
        (∀ q, heap m' !! q =
              if decide (q ∈ entries.*2) then None else heap m !! q) ∧
        ∃ evs, trace m' = trace m ++ evs ∧
               ∀ e, e ∈ evs ↔
                    ∃ k p ns s, (k, p) ∈ entries ∧ heap m !! p = Some ns ∧
                                socket ns = Some s ∧ e = DeleteSocket s.
Proof.
  revert m. induction entries as [|[k p] entries IH]; intros m Hnd Hal.
  - exists m. split; [done|]. split; [done|]. split; [done|].
    exists []. split; [by rewrite app_nil_r|]. intros e. split.
    + by intros ?%elem_of_nil.
    + by intros (? & ? & ? & ? & ?%elem_of_nil & _).
  - simpl in Hnd. apply NoDup_cons in Hnd as [Hp Hnd].
    destruct (Hal k p) as [ns Hns]; [by left|].
    simpl. unfold delete_NodeTCPState. rewrite Hns. simpl.
    set (m1 := {| m_ip_map := m_ip_map (delete_socket (socket ns) m);
                  heap := delete p (heap (delete_socket (socket ns) m));
                  next_hc := next_hc (delete_socket (socket ns) m);
                  trace := trace (delete_socket (socket ns) m) |}).
    assert (Hmap1 : m_ip_map m1 = m_ip_map m) by (by destruct (socket ns)).
    assert (Hheap1 : heap m1 = delete p (heap m)) by (by destruct (socket ns)).
    assert (Htr1 : trace m1 = trace m ++ socket_deletion (socket ns)).
    { destruct (socket ns); simpl; [done | by rewrite app_nil_r]. }
    assert (Hother : ∀ k' p', (k', p') ∈ entries → p' ≠ p).
    { intros k' p' Hin ->. apply Hp. apply list_elem_of_fmap.
      by exists (k', p). }
    destruct (IH m1 Hnd) as (m' & Hrun & Hmap & Hheap & evs & Hev & Hiff).
    { intros k' p' Hin. rewrite Hheap1, lookup_delete_ne.
      - apply (Hal k' p'). by right.
      - intros <-. by eapply Hother. }
    exists m'. split; [done|]. split; [congruence|]. split.
    + intros q. rewrite Hheap, Hheap1.
      change (((k, p) :: entries).*2) with (p :: entries.*2).
      destruct (decide (q ∈ entries.*2)) as [Hin|Hnotin].
      * by rewrite decide_True by (by right).
      * destruct (decide (q = p)) as [->|Hne].
        -- rewrite decide_True by (by left). apply lookup_delete_eq.
        -- rewrite decide_False by (by intros [?|?]%elem_of_cons).
           by apply lookup_delete_ne.
    + exists (socket_deletion (socket ns) ++ evs).
      split; [by rewrite Hev, Htr1, <- app_assoc|].
      intros e. rewrite elem_of_app, Hiff. split.
      * intros [Hin|(k' & p' & ns' & s & Hin & Hns' & Hs & ->)].
        -- destruct (socket ns) as [s|] eqn:Hs; simpl in Hin;
             [|by apply elem_of_nil in Hin].
           apply list_elem_of_singleton in Hin as ->.
           exists k, p, ns, s. split; [by left | done].
        -- exists k', p', ns', s. split; [by right|]. split; [|done].
           rewrite Hheap1, lookup_delete_ne in Hns'; [done|].
           intros <-. by eapply Hother.
      * intros (k' & p' & ns' & s & [[= -> ->]|Hin]%elem_of_cons & Hns' & Hs & ->).
        -- left. assert (ns' = ns) as -> by congruence. rewrite Hs. by left.
        -- right. exists k', p', ns', s. split; [done|]. split; [|done].
           rewrite Hheap1, lookup_delete_ne; [done|].
           intros <-. by eapply Hother.
Qed.

(** The destructor of a well-formed monitor runs through, leaves an empty
    table and frees every node state the table pointed to; what it deletes
    on the way are exactly the sockets that some entry still holds.  It
    deletes no health checked connection, not even one that is still
    attached, and removes nothing from the select server; at the end it
    joins and cleans up the SLP thread. *)
Theorem destroy_deletes_held_sockets_only (m : SimpleE133Monitor) :
  wf m →
  ∃ m', SimpleE133Monitor_destroy m = Some (m', [Join; Cleanup]) ∧
        m_ip_map m' = ∅ ∧
        (∀ k p, m_ip_map m !! k = Some p → heap m' !! p = None) ∧
        (∀ e, e ∈ events_since m m' ↔
              ∃ ip ns s, node_of m ip = Some ns ∧ socket ns = Some s ∧
                         e = DeleteSocket s).
Proof.
  intros [Hal Hinj]. unfold SimpleE133Monitor_destroy.
  destruct (delete_entries_spec (map_to_list (m_ip_map m)) m)
    as (m' & Hrun & Hmap & Hheap & evs & Hev & Hiff).
  - apply NoDup_fmap_2_strong; [|apply NoDup_map_to_list].
    intros [k1 p1] [k2 p2] Hin1%elem_of_map_to_list Hin2%elem_of_map_to_list.
    simpl. intros <-. f_equal. by eapply Hinj.
  - intros k p Hin%elem_of_map_to_list. by eapply Hal.
  - rewrite Hrun. simpl. eexists. split; [done|]. split; [done|]. split.
    + intros k p Hk. simpl. rewrite Hheap, decide_True; [done|].
      apply list_elem_of_fmap. exists (k, p). split; [done|].
      by apply elem_of_map_to_list.
    + intros e. erewrite events_since_app; [|exact Hev]. rewrite Hiff. split.
      * intros (k & p & ns & s & Hin%elem_of_map_to_list & Hns & Hs & ->).
        exists (mkIP k), ns, s. split; [|done]. unfold node_of. simpl.
        by rewrite Hin.
      * intros (ip & ns & s & Hn & Hs & ->). unfold node_of in Hn.
        destruct (m_ip_map m !! AsInt ip) as [p|] eqn:Hk; simpl in Hn; [|done].
        exists (AsInt ip), p, ns, s. split; [|done].
        by apply elem_of_map_to_list.
Qed.

Lemma destroy_deletes_held_sockets_only_witness :
  wf monitor_A_connected ∧
  ∃ m', SimpleE133Monitor_destroy monitor_A_connected
          = Some (m', [Join; Cleanup]) ∧
        DeleteSocket sockA ∈ events_since monitor_A_connected m' ∧
        DeleteHealthCheckedConnection hcA ∉ events_since monitor_A_connected m'.
Proof.
  pose proof (reachable_Inv _ reachable_A_connected) as [Hwf _].
  split; [exact Hwf|].
  destruct (destroy_deletes_held_sockets_only monitor_A_connected Hwf)
    as (m' & Hrun & _ & _ & Hiff).
  exists m'. split; [exact Hrun|]. split.
  - apply Hiff. eexists ipA, _, sockA. split; [reflexivity|]. by split.
  - intros (ip & ns & s & _ & _ & Heq)%Hiff. discriminate Heq.
Defined.

(** ** The command line *)

Lemma last_wins {A B C} (step : A → B → A) (get : A → C)
    (pick : B → option C) :
  (∀ a b, get (step a b) = default (get a) (pick b)) →
  ∀ (l : list B) a,
    get (foldl step a l) = default (get a) (last (omap pick l)).
Proof.
  intros Hstep l. induction l as [|b l IH] using rev_ind; intros a; [done|].
  rewrite foldl_snoc, Hstep, omap_app, IH. simpl.
  destruct (pick b) as [c|]; simpl.
  - by rewrite last_snoc.
  - by rewrite app_nil_r.
Qed.

Lemma handle_option_cases atoi opts r :
  CommandLine.help (CommandLine.handle_option atoi opts r) =
    CommandLine.help opts || Ascii.eqb (CommandLine.c r) "h" ∧
  CommandLine.level (CommandLine.handle_option atoi opts r) =
    default (CommandLine.level opts) (level_selected atoi r) ∧
  CommandLine.target_addresses (CommandLine.handle_option atoi opts r) =
    default (CommandLine.target_addresses opts) (argument_of "t" r) ∧
  CommandLine.pid_file (CommandLine.handle_option atoi opts r) =
    default (CommandLine.pid_file opts) (argument_of "p" r).
Proof.
  unfold CommandLine.handle_option, level_selected, argument_of.
  destruct (Ascii.eqb_spec (CommandLine.c r) "h") as [Hh|Hh];
    [rewrite Hh; simpl; by rewrite orb_true_r|].
  rewrite orb_false_r.
  destruct (Ascii.eqb_spec (CommandLine.c r) "l") as [Hl|Hl].
  { rewrite Hl. simpl. unfold CommandLine.level_of.
    destruct (atoi (CommandLine.optarg r)) as [|q|q]; try done.
    do 3 (try destruct q as [q|q|]; try done). }
  destruct (Ascii.eqb_spec (CommandLine.c r) "p") as [Hp|Hp];
    [rewrite Hp; done|].
  destruct (Ascii.eqb_spec (CommandLine.c r) "t") as [Ht|Ht]; done.
Qed.

(** For [--targets], [--pid-file] and [--log-level] the last occurrence on
    the command line decides, and without an occurrence the field keeps
    the value it had.  A log level outside 0 .. 4 is skipped: it neither
    sets the level nor resets an earlier one. *)
Theorem ParseOptions_last_occurrence_wins
    (atoi : string → Z) (results : list CommandLine.getopt_result)
    (opts : CommandLine.options) :
  let opts' := CommandLine.ParseOptions atoi results opts in
  CommandLine.target_addresses opts' =
    default (CommandLine.target_addresses opts)
      (last (omap (argument_of "t") results)) ∧
  CommandLine.pid_file opts' =
    default (CommandLine.pid_file opts)
      (last (omap (argument_of "p") results)) ∧
  CommandLine.level opts' =
    default (CommandLine.level opts)
      (last (omap (level_selected atoi) results)).
Proof.
  unfold CommandLine.ParseOptions. simpl. repeat split.
  - apply (last_wins _ CommandLine.target_addresses).
    intros a b. apply handle_option_cases.
  - apply (last_wins _ CommandLine.pid_file).
    intros a b. apply handle_option_cases.
  - apply (last_wins _ CommandLine.level).
    intros a b. apply handle_option_cases.
Qed.

(** [ParseOptions] sets the help flag when [-h] occurs anywhere on the
    command line and never clears it; option characters other than h, l,
    p and t (the [?] of an unknown option among them) change nothing. *)
Theorem ParseOptions_help_and_unknown
    (atoi : string → Z) (results : list CommandLine.getopt_result)
    (opts : CommandLine.options) :
  CommandLine.help (CommandLine.ParseOptions atoi results opts) =
    CommandLine.help opts ||
    existsb (λ r, Ascii.eqb (CommandLine.c r) "h") results ∧
  (Forall (λ r, CommandLine.c r ∉ ["h"; "l"; "p"; "t"]%char) results →
   CommandLine.ParseOptions atoi results opts = opts).
Proof.
  unfold CommandLine.ParseOptions. split.
  - revert opts. induction results as [|r results IH]; intros opts; simpl.
    + by rewrite orb_false_r.
    + rewrite IH. destruct (handle_option_cases atoi opts r) as [-> _].
      by rewrite orb_assoc.
  - revert opts. induction results as [|r results IH]; intros opts; [done|].
    intros [Hr Hrest]%Forall_cons. simpl.
    replace (CommandLine.handle_option atoi opts r) with opts; [by apply IH|].
    unfold CommandLine.handle_option.
    rewrite !not_elem_of_cons in Hr. destruct Hr as (Hh & Hl & Hp & Ht & _).
    destruct (Ascii.eqb_spec (CommandLine.c r) "h"); [done|].
    destruct (Ascii.eqb_spec (CommandLine.c r) "l"); [done|].
    destruct (Ascii.eqb_spec (CommandLine.c r) "p"); [done|].
    by destruct (Ascii.eqb_spec (CommandLine.c r) "t").
Qed.

(** ** What a callback leaves alone *)

Lemma wf_updated m p ns0 ns nh evs :
  wf m → heap m !! p = Some ns0 → wf (updated m p ns nh evs).
Proof.
  intros [Hal Hinj] Hp. split; [|exact Hinj]. intros k q Hk. simpl.
  destruct (decide (p = q)) as [->|Hne];
    [rewrite lookup_insert_eq; eauto | rewrite lookup_insert_ne; eauto].
Qed.

Lemma node_of_updated_other m p ns nh evs ip' :
  m_ip_map m !! AsInt ip' ≠ Some p →
  node_of (updated m p ns nh evs) ip' = node_of m ip'.
Proof.
  intros Hne. unfold node_of. simpl.
  destruct (m_ip_map m !! AsInt ip') as [q|]; simpl; [|done].
  rewrite lookup_insert_ne; [done|]. congruence.
Qed.

Lemma untouched_step op m m' ip' :
  wf m → step_spec op m m' → ¬ concerns op m ip' →
  node_of m' ip' = node_of m ip'.
Proof.
  intros Hwf Hstep.
  induction Hstep as [ip m Htr|ip m Hk|ip port sock ok m Hk
                 |ip port s m p ns Hk Hp
                 |ip port s m p ns Hk Hp|ip m Hk|ip m p ns Hk Hp
                 |p m ns s m' Hp Hs _ IH|header m Ht|header m Ht Hk
                 |header m p ns Ht Hk Hp Hh|header m p ns h Ht Hk Hp Hh];
    simpl; intros Hnot; try done;
    try (apply node_of_updated_other; intros Hk';
         destruct Hwf as [_ Hinj];
         pose proof (Hinj _ _ _ Hk Hk') as Heq;
         destruct ip, ip'; simpl in Heq; by subst).
  - unfold node_of. simpl.
    rewrite lookup_insert_ne
      by (intros Heq; destruct ip, ip'; simpl in Heq; by subst).
    destruct (m_ip_map m !! AsInt ip') as [q|] eqn:Hq; simpl; [|done].
    apply lookup_insert_ne. intros <-. destruct Hwf as [Hal _].
    destruct (Hal _ _ Hq) as [nq Hnq].
    apply (is_fresh (dom (heap m))). apply elem_of_dom. eauto.
  - etrans; [apply IH|].
    + by eapply wf_updated.
    + simpl. intros ->. apply Hnot. right. by exists ns, s.
    + apply node_of_updated_other. intros Hk'. apply Hnot. by left.
Qed.

(** A callback changes the node state of no address other than those it
    is about: the address it is called with, or, for [SocketUnhealthy], the
    address of its node state and the peer that the socket reports.
    Received data changes no node state at all. *)
Theorem callbacks_leave_other_entries
    (op : Op) (m m' : SimpleE133Monitor) (ip' : IPV4Address) :
  wf m →
  step op m = Some m' →
  ¬ concerns op m ip' →
  node_of m' ip' = node_of m ip'.
Proof.
  intros Hwf Hstep. apply untouched_step; [done|].
  by apply step_spec_complete.
Qed.

Lemma callbacks_leave_other_entries_witness :
  wf monitor_A_connected ∧
  ¬ concerns (OpOnTCPConnect ipA 5569 (Some sockA') false)
      monitor_A_connected ipB ∧
  ∃ m', step (OpOnTCPConnect ipA 5569 (Some sockA') false)
          monitor_A_connected = Some m' ∧
        node_of m' ipB = node_of monitor_A_connected ipB.
Proof.
  pose proof (reachable_Inv _ reachable_A_connected) as [Hwf _].
  assert (Hnot : ¬ concerns (OpOnTCPConnect ipA 5569 (Some sockA') false)
                     monitor_A_connected ipB) by (simpl; discriminate).
  split; [exact Hwf|]. split; [exact Hnot|].
  destruct (step (OpOnTCPConnect ipA 5569 (Some sockA') false)
              monitor_A_connected) as [m'|] eqn:Hstep;
    [|vm_compute in Hstep; discriminate Hstep].
  exists m'. split; [reflexivity|].
  exact (callbacks_leave_other_entries _ _ m' ipB Hwf Hstep Hnot).
Defined.
